(** * The registry router of go-micro: routes, adverts and reconciliation

    A shallow embedding of the registry-backed router (package [registry],
    file [router.go]): domain resolution, the create/update/delete
    reconciliation path, the registry watch loop, the advert aggregation
    loop, inbound advert processing and the router's teardown.

    Conventions of the embedding:
    - Go strings are [string]; Go maps used as dictionaries are [gmap];
      a nil map is [None], a non-nil one is [Some m].
    - an [error] result is [option _], [None] being Go's nil error.
    - goroutines are not modelled: each function is the sequential code of
      one call, channels appear through what one call can observe of them. *)

From Stdlib Require Import ZArith List Sorting.Sorted Sorting.Permutation.
From stdpp Require Import base option list gmap strings fin_maps sorting.

Open Scope Z_scope.
Open Scope string_scope.
Open Scope list_scope.

(** ** Data model *)

(** Metadata is a Go [map[string]string]; indexing a nil map or a missing
    key yields the zero value, the empty string. *)
Definition metadata := option (gmap string string).

Definition mapIndex (md : metadata) (k : string) : string :=
  match md with
  | None => ""
  | Some m => default "" (m !! k)
  end.

(** [router.Route]. [Metric] is an int64. *)
Record Route := mkRoute {
  Service : string;
  Address : string;
  Gateway : string;
  Network : string;
  Router : string;
  Link : string;
  Metric : Z;
  Metadata : metadata;
}.

(** [registry.Node] and [registry.Service]. [Nodes] is a slice of node
    pointers; the registry never hands out nil nodes, so a node is a value. *)
Record Node := mkNode {
  node_Id : string;
  node_Address : string;
  node_Metadata : metadata;
}.

Record RegService := mkService {
  svc_Name : string;
  svc_Version : string;
  svc_Metadata : metadata;
  svc_Nodes : list Node;
}.

(** Modelled from the spec: the constant [registry.DefaultDomain] is declared
    in package registry, outside the router's file; the spec gives the
    fallback of domain resolution as the literal "default". *)
Definition DefaultDomain : string := "default".

(** [getDomain]: the service metadata's non-empty "domain", else the first
    node's "domain" when that node carries metadata, else the default. *)
Definition getDomain (srv : RegService) : string :=
  if decide (0 < String.length (mapIndex (svc_Metadata srv) "domain"))%nat
  then mapIndex (svc_Metadata srv) "domain"
  else match svc_Nodes srv with
       | n :: _ =>
           match node_Metadata n with
           | Some m => mapIndex (Some m) "domain"
           | None => DefaultDomain
           end
       | [] => DefaultDomain
       end.

(** [router.EventType] is an int with three named values; any other value
    is carried as [OtherType]. *)
Inductive EventType :=
  | Create
  | Delete
  | Update
  | OtherType (n : Z).

(** Modelled from the spec: [EventType.String] is declared in package router,
    outside the router's file; the spec names the three actions create,
    update and delete, the ones [manageRoute] switches on, and every other
    value prints as an action [manageRoute] does not know. *)
Definition EventType_String (t : EventType) : string :=
  match t with
  | Create => "create"
  | Delete => "delete"
  | Update => "update"
  | OtherType _ => "unknown"
  end.

(** [router.Event]; [Timestamp] is an instant, here nanoseconds on Z, and
    [time.Time.Before] is [<] on it. *)
Record Event := mkEvent {
  ev_Type : EventType;
  Timestamp : Z;
  ev_Route : Route;
}.

Inductive AdvertType :=
  | Announce
  | RouteUpdate.

Inductive Strategy :=
  | AdvertiseAll
  | AdvertiseBest
  | AdvertiseLocal
  | AdvertiseNone.

(** [registry.Result]: an action and a service pointer, which may be nil. *)
Record Result := mkResult {
  Action : string;
  res_Service : option RegService;
}.

(** [router.Options], without the registry client, which the functions
    below receive through what it returned. *)
Record Options := mkOptions {
  Id : string;
  opt_Gateway : string;
  Advertise : Strategy;
  Precache : bool;
}.

(** Modelled from the spec: [router.DefaultLink] and
    [router.DefaultLocalMetric] are declared in package router; the spec's
    projected route is [(auth, 10.0.0.1, -, default, self, local, 1)]. *)
Definition DefaultLink : string := "local".
Definition DefaultLocalMetric : Z := 1.

(** ** Errors

    The sentinel errors are compared by identity in the source; every
    [fmt.Errorf] site is one constructor carrying what the format prints.
    [ErrOther] is any other error value of a collaborator. *)
Inductive error :=
  | ErrDuplicateRoute
  | ErrRouteNotFound
  | ErrWatcherStopped
  | ErrOther (msg : string)
  (* "failed adding route for service %s: %s" *)
  | FailedAdding (service : string) (cause : error)
  (* "failed deleting route for service %s: %s" *)
  | FailedDeleting (service : string) (cause : error)
  (* "failed updating route for service %s: %s" *)
  | FailedUpdating (service : string) (cause : error)
  (* "failed to manage route for service %s: unknown action %s" *)
  | UnknownAction (service action : string)
  (* "failed applying action %s to routing table: %s" *)
  | FailedApplying (action : EventType) (cause : error)
  (* "failed listing services: %v" *)
  | FailedListing (cause : error)
  (* "failed loading registry routes: %s" *)
  | FailedLoading (cause : error)
  (* "failed adding default gateway route: %s" *)
  | FailedGateway (cause : error).

#[global] Instance EventType_eq_dec : EqDecision EventType.
Proof. solve_decision. Defined.

#[global] Instance error_eq_dec : EqDecision error.
Proof. solve_decision. Defined.

(** ** The routing table, as the router sees it

    The table is a collaborator of the router: its four mutators are an
    interface, and every theorem on the router's own code holds for any
    table. A mutator returns the new table and Go's error result. *)
Class Table (T : Type) := {
  tCreate : Route -> T -> T * option error;
  tUpdate : Route -> T -> T * option error;
  tDelete : Route -> T -> T * option error;
  tDeleteService : string -> string -> T -> T;
}.

(** The calls a router function made on the table, oldest first. *)
Inductive TableCall :=
  | CallCreate (r : Route)
  | CallUpdate (r : Route)
  | CallDelete (r : Route)
  | CallDeleteService (service network : string).

(** The router's table handle: the table and the record of calls on it. *)
Record tstate (T : Type) := mkTState {
  table : T;
  calls : list TableCall;
}.
Arguments mkTState {T} _ _.
Arguments table {T} _.
Arguments calls {T} _.

(** A [for ... range] loop whose body may return an error: the first error
    ends the loop and is the result. *)
Fixpoint forEach {S A E : Type} (body : A -> S -> S * option E)
    (l : list A) (s : S) : S * option E :=
  match l with
  | [] => (s, None)
  | x :: l' =>
      match body x s with
      | (s', Some err) => (s', Some err)
      | (s', None) => forEach body l' s'
      end
  end.

(** [strings.ToLower] on the bytes of an ASCII string: A..Z are mapped to
    a..z, every other byte is kept. (On other strings Go maps whole runes;
    no rune outside ASCII lowers to a letter of an action name.) *)
Definition lowerAscii (c : Ascii.ascii) : Ascii.ascii :=
  let n := Ascii.N_of_ascii c in
  if ((65 <=? n) && (n <=? 90))%N then Ascii.ascii_of_N (n + 32) else c.

Fixpoint ToLower (s : string) : string :=
  match s with
  | EmptyString => EmptyString
  | String c s' => String (lowerAscii c) (ToLower s')
  end.

Section Reconcile.
Context {T : Type} {tableOps : Table T}.

Definition callCreate (route : Route) (st : tstate T) : tstate T * option error :=
  let '(t', err) := tCreate route (table st) in
  (mkTState t' (calls st ++ [CallCreate route]), err).

Definition callUpdate (route : Route) (st : tstate T) : tstate T * option error :=
  let '(t', err) := tUpdate route (table st) in
  (mkTState t' (calls st ++ [CallUpdate route]), err).

Definition callDelete (route : Route) (st : tstate T) : tstate T * option error :=
  let '(t', err) := tDelete route (table st) in
  (mkTState t' (calls st ++ [CallDelete route]), err).

Definition callDeleteService (service network : string) (st : tstate T) : tstate T :=
  mkTState (tDeleteService service network (table st))
           (calls st ++ [CallDeleteService service network]).

(** [manageRoute] applies action on a given route. *)
Definition manageRoute (route : Route) (action : string) (st : tstate T)
    : tstate T * option error :=
  if decide (action = "create") then
    match callCreate route st with
    | (st', Some err) =>
        if decide (err = ErrDuplicateRoute) then (st', None)
        else (st', Some (FailedAdding (Service route) err))
    | (st', None) => (st', None)
    end
  else if decide (action = "delete") then
    match callDelete route st with
    | (st', Some err) =>
        if decide (err = ErrRouteNotFound) then (st', None)
        else (st', Some (FailedDeleting (Service route) err))
    | (st', None) => (st', None)
    end
  else if decide (action = "update") then
    match callUpdate route st with
    | (st', Some err) => (st', Some (FailedUpdating (Service route) err))
    | (st', None) => (st', None)
    end
  else (st, Some (UnknownAction (Service route) action)).

(** [createRoutes] turns a service into a list of routes, one per node. *)
Definition createRoutes (opts : Options) (service : RegService) (network : string)
    : list Route :=
  map (fun node =>
         {| Service := svc_Name service;
            Address := node_Address node;
            Gateway := "";
            Network := network;
            Router := Id opts;
            Link := DefaultLink;
            Metric := DefaultLocalMetric;
            Metadata := node_Metadata node |})
      (svc_Nodes service).

(** [manageRoutes] applies action to all routes of the service. *)
Definition manageRoutes (opts : Options) (service : RegService)
    (action network : string) (st : tstate T) : tstate T * option error :=
  let action := ToLower action in
  let routes := createRoutes opts service network in
  if bool_decide (action = "delete") && bool_decide (length routes = 0%nat) then
    (callDeleteService (svc_Name service) network st, None)
  else
    forEach (fun route => manageRoute route action) routes st.

(** What [w.Next()] returned, call after call: a registry result or an
    error. [Waiting] is the loop blocked in [Next] once the list is used up. *)
Inductive nextResult :=
  | NextOk (res : Result)
  | NextErr (err : error).

Inductive watchOutcome :=
  | Returned (err : option error)
  | Waiting.

(** [watchRegistry] watches the registry and updates the routing table based
    on the received events. *)
Fixpoint watchRegistry (opts : Options) (nexts : list nextResult) (st : tstate T)
    : tstate T * watchOutcome :=
  match nexts with
  | [] => (st, Waiting)
  | NextErr err :: _ =>
      if decide (err = ErrWatcherStopped) then (st, Returned None)
      else (st, Returned (Some err))
  | NextOk res :: rest =>
      match res_Service res with
      | None => watchRegistry opts rest st
      | Some srv =>
          let domain := getDomain srv in
          match manageRoutes opts srv (Action res) domain st with
          | (st', Some err) => (st', Returned (Some err))
          | (st', None) => watchRegistry opts rest st'
          end
      end
  end.

(** One iteration of the loop of [Process]: skip the router's own routes,
    apply every other event through [manageRoute]. *)
Definition processEvent (opts : Options) (event : Event) (st : tstate T)
    : tstate T * option error :=
  if decide (Router (ev_Route event) = Id opts) then (st, None)
  else
    let route := ev_Route event in
    let action := ev_Type event in
    match manageRoute route (EventType_String action) st with
    | (st', Some err) => (st', Some (FailedApplying action err))
    | (st', None) => (st', None)
    end.

End Reconcile.

(** ** Slices and event pointers

    [Process] copies and sorts a slice of event pointers, so the heap is
    explicit there: event objects by address (0 is nil) and backing arrays
    by address. A slice header is a window of a backing array. *)
Record slice := mkSlice {
  s_array : N;
  s_off : nat;
  s_len : nat;
}.

Record Memory := mkMemory {
  objects : gmap N Event;
  arrays : gmap N (list N);
}.

(** [*p]: a nil (or dangling) pointer has no object; the Go code panics. *)
Definition deref (m : Memory) (p : N) : option Event :=
  if decide (p = 0%N) then None else objects m !! p.

(** The elements a slice header denotes; a header of length 0 (nil slice
    included) denotes no element whatever its array. *)
Definition sliceRead (m : Memory) (s : slice) : option (list N) :=
  if decide (s_len s = 0%nat) then Some []
  else
    match arrays m !! s_array s with
    | Some arr =>
        if decide (s_off s + s_len s <= length arr)%nat
        then Some (take (s_len s) (drop (s_off s) arr))
        else None
    | None => None
    end.

(** Overwrite the first [length l] elements of the slice, in place. *)
Definition sliceWrite (m : Memory) (s : slice) (l : list N) : Memory :=
  mkMemory (objects m)
    (alter (fun arr => take (s_off s) arr ++ l ++ drop (s_off s + length l) arr)
           (s_array s) (arrays m)).

(** [make([]*router.Event, n)]: a fresh backing array of n nil pointers. *)
Definition makeSlice (m : Memory) (n : nat) : Memory * slice :=
  let a := fresh (dom (arrays m)) in
  (mkMemory (objects m) (<[a := replicate n 0%N]> (arrays m)), mkSlice a 0 n).

(** [copy(dst, src)]: the first min(len dst, len src) elements. *)
Definition copySlice (m : Memory) (dst : slice) (src : list N) : Memory :=
  sliceWrite m dst (take (s_len dst) src).

(** [router.Advert]; [Events] is a slice of event pointers. *)
Record Advert := mkAdvert {
  adv_Id : string;
  adv_Type : AdvertType;
  TTL : Z;
  adv_Timestamp : Z;
  Events : slice;
}.

(** [sort.Slice] with a [less] function. The insertion sort is the one Go's
    sort package runs on a slice of fewer than 12 elements: element i moves
    left while it is less than its left neighbour. The sorted prefix is kept
    reversed, its last element first. On longer slices Go's sort may leave
    elements that compare equal in another order; the statements on
    [Process] rest on the result being an ordered permutation only. *)
Fixpoint insertLeft {A : Type} (less : A -> A -> bool) (x : A) (revPrefix : list A)
    : list A :=
  match revPrefix with
  | [] => [x]
  | y :: rest =>
      if less x y then y :: insertLeft less x rest else x :: y :: rest
  end.

Definition sortSlice {A : Type} (less : A -> A -> bool) (l : list A) : list A :=
  rev (fold_left (fun revPrefix x => insertLeft less x revPrefix) l []).

(** The pointers of a slice with the events they point to; [None] when one
    of them is nil. *)
Definition derefAll (m : Memory) (ptrs : list N) : option (list (N * Event)) :=
  mapM (fun p => match deref m p with Some e => Some (p, e) | None => None end) ptrs.

(** [events[i].Timestamp.Before(events[j].Timestamp)] *)
Definition lessTimestamp (a b : N * Event) : bool :=
  Z.ltb (Timestamp (snd a)) (Timestamp (snd b)).

Section ProcessAdvert.
Context {T : Type} {tableOps : Table T}.

(** [Process] updates the routing table using the advertised values. The
    result is [None] when the Go code panics: the header of [a.Events] is
    out of its array, or one of its pointers is nil, which the comparison of
    the sort (two elements or more) or the loop (one element) dereferences
    before any event is applied. *)
Definition Process (opts : Options) (a : Advert) (m : Memory) (st : tstate T)
    : option (Memory * tstate T * option error) :=
  match sliceRead m (Events a) with
  | None => None
  | Some src =>
      let '(m1, events) := makeSlice m (length src) in
      let m2 := copySlice m1 events src in
      match sliceRead m2 events with
      | None => None
      | Some ptrs =>
          match derefAll m2 ptrs with
          | None => None
          | Some pes =>
              let sorted := sortSlice lessTimestamp pes in
              let m3 := sliceWrite m2 events (map fst sorted) in
              let '(st', err) := forEach (processEvent opts) (map snd sorted) st in
              Some (m3, st', err)
          end
      end
  end.

End ProcessAdvert.

(** ** The advert engine *)

#[global] Instance Strategy_eq_dec : EqDecision Strategy.
Proof. solve_decision. Defined.

(** What the [select] of [advertiseEvents] received: a tick of the ticker,
    or a table event pointer from [eventChan] (nil is [None]). The exit
    case ends the loop: it is the end of the input list. *)
Inductive engineInput :=
  | TickerC
  | EventChan (e : option Event).

(** The loop's state: the [adverts] map, and the calls of [publishAdvert]
    made so far with their advert type and events, oldest first. *)
Record engine := mkEngine {
  adverts : gmap Z Event;
  published : list (AdvertType * list Event);
}.

Section AdvertEngine.
(** [Route.Hash], the fingerprint of a route, is declared in package router:
    the engine is stated for any hash function. *)
Variable Hash : Route -> Z.
Variable opts : Options.

(** [r.options.Advertise == router.AdvertiseLocal && e.Route.Link != "local"] *)
Definition skipLocal (e : Event) : bool :=
  bool_decide (Advertise opts = AdvertiseLocal)
  && negb (bool_decide (Link (ev_Route e) = "local")).

(** The case [e := <-r.eventChan]. When the map already holds an event for
    the hash, the source assigns [e] to its local variable [ev] when the
    types differ, and leaves the map as it is. *)
Definition onEvent (e : option Event) (adv : gmap Z Event) : gmap Z Event :=
  match e with
  | None => adv
  | Some e =>
      if bool_decide (Advertise opts = AdvertiseNone) then adv
      else if skipLocal e then adv
      else
        let hash := Hash (ev_Route e) in
        match adv !! hash with
        | None => <[hash := e]> adv
        | Some ev =>
            let ev := if bool_decide (ev_Type ev <> ev_Type e) then e else ev in
            adv
        end
  end.

(** The [for key, event := range adverts] loop of a tick: every entry that
    is not skipped is copied to [events] and deleted from the map. The order
    of a Go map range is unspecified; here it is the order of
    [map_to_list]. *)
Definition collect (adv : gmap Z Event) : list Event * gmap Z Event :=
  fold_left
    (fun acc kv =>
       if skipLocal (snd kv) then acc
       else (fst acc ++ [snd kv], delete (fst kv) (snd acc)))
    (map_to_list adv) ([], adv).

(** The case [<-ticker.C]. *)
Definition onTick (st : engine) : engine :=
  if bool_decide (Advertise opts = AdvertiseNone) then st
  else
    let '(events, adv') := collect (adverts st) in
    if bool_decide (0 < length events)%nat
    then mkEngine adv' (published st ++ [(RouteUpdate, events)])
    else mkEngine adv' (published st).

Definition engineStep (st : engine) (i : engineInput) : engine :=
  match i with
  | TickerC => onTick st
  | EventChan e => mkEngine (onEvent e (adverts st)) (published st)
  end.

(** [advertiseEvents]: the loop from the empty map, over what it received
    until the exit channel fired. *)
Definition advertiseEvents (inputs : list engineInput) : engine :=
  fold_left engineStep inputs (mkEngine ∅ []).

End AdvertEngine.

(** ** The router facade: teardown *)

(** The exit channel carries no value: it is nil, open or closed. *)
Inductive chanState :=
  | ChanNil
  | ChanOpen
  | ChanClosed.

(** The fields of [rtr] that [Close] reads or writes. [eventChan] is nil
    ([None]) or open with the events of the senders blocked on it;
    [subscribers] maps a subscriber id to its open channel, given by the
    adverts buffered in it. *)
Record rtr := mkRtr {
  running : bool;
  options : Options;
  exit : chanState;
  eventChan : option (list Event);
  subscribers : gmap string (list Advert);
}.

(** What a call of [Close] did, in order. *)
Inductive teardown :=
  | CloseExit
  | DrainEvent (e : Event)
  | CloseSubscriber (id : string)
  | CloseEventChan.

(** [drain] receives from [eventChan] while a sender is ready. *)
Definition drain (r : rtr) : rtr * list teardown :=
  match eventChan r with
  | None => (r, [])
  | Some pending =>
      (mkRtr (running r) (options r) (exit r) (Some []) (subscribers r),
       map DrainEvent pending)
  end.

(** The loop [for id, sub := range r.subscribers]: close and delete each. *)
Definition closeSubscribers (subs : gmap string (list Advert))
    : gmap string (list Advert) * list teardown :=
  fold_left
    (fun acc kv => (delete (fst kv) (fst acc), snd acc ++ [CloseSubscriber (fst kv)]))
    (map_to_list subs) (subs, []).

(** [Close] stops the router. The result is [None] when the Go code
    panics, closing a nil exit channel. *)
Definition Close (r : rtr) : option (rtr * list teardown * option error) :=
  match exit r with
  | ChanClosed => Some (r, [], None)
  | e =>
      if negb (running r) then Some (r, [], None)
      else
        match e with
        | ChanOpen =>
            let r1 := mkRtr (running r) (options r) ChanClosed (eventChan r) (subscribers r) in
            let '(r2, drained) := drain r1 in
            let '(subs, closed) := closeSubscribers (subscribers r2) in
            match eventChan r2 with
            | Some _ =>
                Some (mkRtr false (options r2) (exit r2) None subs,
                      [CloseExit] ++ drained ++ closed ++ [CloseEventChan], None)
            | None =>
                Some (mkRtr false (options r2) (exit r2) None subs,
                      [CloseExit] ++ drained ++ closed, None)
            end
        | _ => None
        end
  end.

(** ** The router facade: bring-up *)

(** [registry.Registry], by what its two calls return: the services of
    [ListServices] over the wildcard domain, and those of [GetService] for a
    name and a domain, or an error. *)
Record Registry := mkRegistry {
  ListServices : list RegService + error;
  GetService : string -> string -> list RegService + error;
}.

Section BringUp.
Context {T : Type} {tableOps : Table T}.

(** The body of the route loops of [loadRoutes]: create the route, update it
    when it is a duplicate so that it does not expire; an error is only
    logged. *)
Definition saveRoute (rt : Route) (st : tstate T) : tstate T :=
  match callCreate rt st with
  | (st1, Some err) =>
      if decide (err = ErrDuplicateRoute) then fst (callUpdate rt st1) else st1
  | (st1, None) => st1
  end.

(** [loadRoutes] applies the routes of each service found in the registry;
    it fails only when the services cannot be listed. *)
Definition loadRoutes (opts : Options) (reg : Registry) (st : tstate T)
    : tstate T * option error :=
  match ListServices reg with
  | inr err => (st, Some (FailedListing err))
  | inl services =>
      (fold_left
         (fun st service =>
            let domain := getDomain service in
            let routes := createRoutes opts service domain in
            if bool_decide (0 < length routes)%nat then
              fold_left (fun st rt => saveRoute rt st) routes st
            else
              match GetService reg (svc_Name service) domain with
              | inr _ => st
              | inl srvs =>
                  fold_left
                    (fun st srv =>
                       fold_left (fun st rt => saveRoute rt st)
                                 (createRoutes opts srv domain) st)
                    srvs st
              end)
         services st,
       None)
  end.

(** [start] starts the router: preload when asked to, the default gateway
    route when one is configured, then the exit channel, and the running
    flag last. The goroutines it launches are not part of the call. *)
Definition start (reg : Registry) (r : rtr) (st : tstate T)
    : rtr * tstate T * option error :=
  if running r then (r, st, None)
  else
    let '(st1, err1) :=
      if Precache (options r) then loadRoutes (options r) reg st else (st, None) in
    match err1 with
    | Some err => (r, st1, Some (FailedLoading err))
    | None =>
        let '(st2, err2) :=
          if bool_decide (opt_Gateway (options r) <> "") then
            callCreate
              {| Service := "*"; Address := "*"; Gateway := opt_Gateway (options r);
                 Network := "*"; Router := Id (options r); Link := DefaultLink;
                 Metric := DefaultLocalMetric; Metadata := None |} st1
          else (st1, None) in
        match err2 with
        | Some err => (r, st2, Some (FailedGateway err))
        | None =>
            (mkRtr true (options r) ChanOpen (eventChan r) (subscribers r), st2, None)
        end
    end.

(** [NewRouter] builds the router and starts it; the error of [start] is
    dropped. *)
Definition NewRouter (opts : Options) (reg : Registry) (t : T) : rtr * tstate T :=
  fst (start reg (mkRtr false opts ChanNil None ∅) (mkTState t [])).

End BringUp.

(** ** The table and the fingerprint, from the specification

    The table and [Route.Hash] are code of other files. The definitions
    below follow the specification's contract; they instantiate the
    router's functions at a concrete table. *)

(** Modelled from the spec: [Route.Hash] is declared in package router. The
    spec asks for a stable 64-bit hash of the concatenation of the six
    identity fields (Service, Address, Gateway, Network, Router, Link) with
    an unambiguous separator; the hash here is FNV-1a on the bytes, each
    field followed by a zero byte. *)
Definition fnvStep (h : Z) (c : Ascii.ascii) : Z :=
  (Z.lxor h (Z.of_N (Ascii.N_of_ascii c)) * 1099511628211) mod 2 ^ 64.

Fixpoint fnvString (h : Z) (s : string) : Z :=
  match s with
  | EmptyString => h
  | String c s' => fnvString (fnvStep h c) s'
  end.

Definition fnvField (h : Z) (s : string) : Z :=
  fnvStep (fnvString h s) Ascii.zero.

Definition fingerprint (r : Route) : Z :=
  fold_left fnvField
    [Service r; Address r; Gateway r; Network r; Router r; Link r]
    14695981039346656037.

(** Modelled from the spec: the table ([table.go]) is not part of the
    router's file. The spec's table keeps at most one route per fingerprint
    with its last-seen time, and emits one event per accepted mutation,
    stamped with the current time. *)
Record specTable := mkSpecTable {
  routes : gmap Z (Route * Z);
  emitted : list Event;
  now : Z;
}.

(** Modelled from the spec: the wildcard "*" matches any network. *)
Definition wildcardMatch (a b : string) : bool :=
  bool_decide (a = "*") || bool_decide (b = "*") || bool_decide (a = b).

(** Modelled from the spec: the routes [deleteService] removes are those
    with matching Service and Network. *)
Definition ofService (service network : string) (r : Route) : bool :=
  bool_decide (Service r = service) && wildcardMatch (Network r) network.

Section SpecTable.
Variable Hash : Route -> Z.

(** Modelled from the spec: [Create] inserts a new route keyed by
    fingerprint, fails with [ErrDuplicateRoute] if present, and on success
    sets last-seen to now and emits [Create]. *)
Definition specCreate (route : Route) (t : specTable) : specTable * option error :=
  match routes t !! Hash route with
  | Some _ => (t, Some ErrDuplicateRoute)
  | None =>
      (mkSpecTable (<[Hash route := (route, now t)]> (routes t))
                   (emitted t ++ [mkEvent Create (now t) route]) (now t),
       None)
  end.

(** Modelled from the spec: [Update] overwrites Metric and Metadata of a
    present route, refreshes last-seen and emits [Update]; on an absent
    route it falls back to [Create]. *)
Definition specUpdate (route : Route) (t : specTable) : specTable * option error :=
  match routes t !! Hash route with
  | Some (old, _) =>
      let new := mkRoute (Service old) (Address old) (Gateway old) (Network old)
                         (Router old) (Link old) (Metric route) (Metadata route) in
      (mkSpecTable (<[Hash route := (new, now t)]> (routes t))
                   (emitted t ++ [mkEvent Update (now t) new]) (now t),
       None)
  | None => specCreate route t
  end.

(** Modelled from the spec: [Delete] removes by fingerprint, fails with
    [ErrRouteNotFound] if absent, and emits [Delete]. *)
Definition specDelete (route : Route) (t : specTable) : specTable * option error :=
  match routes t !! Hash route with
  | Some (old, _) =>
      (mkSpecTable (delete (Hash route) (routes t))
                   (emitted t ++ [mkEvent Delete (now t) old]) (now t),
       None)
  | None => (t, Some ErrRouteNotFound)
  end.

(** Modelled from the spec: [deleteService] removes all routes with
    matching Service and Network and emits [Delete] for each removed
    route. *)
Definition specDeleteService (service network : string) (t : specTable) : specTable :=
  let gone := filter (fun kv => ofService service network (fst (snd kv)) = true)
                     (map_to_list (routes t)) in
  mkSpecTable
    (filter (fun kv => ofService service network (fst (snd kv)) = false) (routes t))
    (emitted t ++ map (fun kv => mkEvent Delete (now t) (fst (snd kv))) gone)
    (now t).

Definition specTableOps : Table specTable := {|
  tCreate := specCreate;
  tUpdate := specUpdate;
  tDelete := specDelete;
  tDeleteService := specDeleteService;
|}.

End SpecTable.

(** The spec's table keyed by the spec's fingerprint. *)
#[global] Instance fingerprintTable : Table specTable := specTableOps fingerprint.

(** ** Vocabulary of the statements *)

(** The table call an applied event leads to: none for an event type
    [manageRoute] does not know. *)
Definition eventCall (e : Event) : list TableCall :=
  match ev_Type e with
  | Create => [CallCreate (ev_Route e)]
  | Delete => [CallDelete (ev_Route e)]
  | Update => [CallUpdate (ev_Route e)]
  | OtherType _ => []
  end.

(** The route a call on the table names, if it names one. *)
Definition callRoute (c : TableCall) : option Route :=
  match c with
  | CallCreate r | CallUpdate r | CallDelete r => Some r
  | CallDeleteService _ _ => None
  end.

(** The event is not one of this router's own originations. *)
Definition foreign (opts : Options) (e : Event) : Prop :=
  Router (ev_Route e) <> Id opts.

#[global] Instance foreign_dec opts e : Decision (foreign opts e).
Proof. unfold foreign. apply _. Defined.

(** Non-decreasing timestamps. *)
Definition notAfter (a b : Event) : Prop := Timestamp a <= Timestamp b.

(** The router invariant [Close] relies on: [start] makes the exit channel
    before it sets the running flag. *)
Definition started (r : rtr) : Prop :=
  running r = true -> exit r <> ChanNil.

(** What [manageRoute] adds to the record of calls. *)
Definition actionCall (route : Route) (action : string) : list TableCall :=
  if decide (action = "create") then [CallCreate route]
  else if decide (action = "delete") then [CallDelete route]
  else if decide (action = "update") then [CallUpdate route]
  else [].

(** The comparison of [sort.Slice]: strictly smaller key. *)
Definition lessBy {A : Type} (key : A -> Z) (a b : A) : bool :=
  Z.ltb (key a) (key b).

(** The sorted prefix, last element first: keys do not increase. *)
Definition descending {A : Type} (key : A -> Z) (l : list A) : Prop :=
  StronglySorted (fun a b => key b <= key a) l.

Definition ascending {A : Type} (key : A -> Z) (l : list A) : Prop :=
  StronglySorted (fun a b => key a <= key b) l.

(** The memory [Process] leaves: the memory it found, and one fresh array
    holding the sorted copy. *)
Definition processMemory (m : Memory) (sortedPtrs : list N) : Memory :=
  mkMemory (objects m) (<[fresh (dom (arrays m)) := sortedPtrs]> (arrays m)).

(** The events in the order [Process] visits them. *)
Definition sortedEvents (pes : list (N * Event)) : list Event :=
  map snd (sortSlice lessTimestamp pes).

(** Every entry of the map sits under the hash of its route and is one the
    strategy lets through. *)
Definition keyed (Hash : Route -> Z) (opts : Options) (adv : gmap Z Event) : Prop :=
  forall k ev, adv !! k = Some ev ->
    Hash (ev_Route ev) = k /\ skipLocal opts ev = false.

(** An input that does not concern the fingerprint [F]: a nil event, or an
    event of another fingerprint. *)
Definition otherInput (Hash : Route -> Z) (F : Z) (i : engineInput) : Prop :=
  match i with
  | TickerC => False
  | EventChan None => True
  | EventChan (Some x) => Hash (ev_Route x) <> F
  end.

(** A tick window starts when the loop starts or right after a tick. *)
Definition windowStart (pre : list engineInput) : Prop :=
  pre = [] \/ last pre = Some TickerC.

(** ** Sample data for the examples *)

Definition sampleRoute (service address router link : string) : Route :=
  mkRoute service address "" "prod" router link 1 None.

Definition cartPeer : Route := sampleRoute "cart" "10.0.0.1:8080" "peer-1" "local".
Definition cartSelf : Route := sampleRoute "cart" "10.0.0.2:8080" "self" "local".

Definition optsAll : Options := mkOptions "self" "" AdvertiseAll false.
Definition optsNone : Options := mkOptions "self" "" AdvertiseNone false.

Definition emptyTable : tstate specTable := mkTState (mkSpecTable ∅ [] 100) [].

Definition cartOther : Route := sampleRoute "cart" "10.0.0.3:8080" "peer-2" "local".

Definition evUpdate1 : Event := mkEvent Update 10 cartPeer.
Definition evUpdate2 : Event := mkEvent Update 11 cartPeer.
Definition evDelete : Event := mkEvent Delete 12 cartPeer.
Definition evOther : Event := mkEvent Create 9 cartOther.

(** An advert of three events, out of timestamp order: a peer's route at
    time 30, the router's own route at time 20, another peer's at time 10. *)
Definition evLate : Event := mkEvent Create 30 cartPeer.
Definition evOwn : Event := mkEvent Create 20 cartSelf.
Definition evEarly : Event := mkEvent Create 10 cartOther.

Definition sampleMemory : Memory :=
  mkMemory (list_to_map [(1%N, evLate); (2%N, evOwn); (3%N, evEarly)])
           (list_to_map [(7%N, [1%N; 2%N; 3%N])]).

Definition sampleAdvert : Advert :=
  mkAdvert "peer-1" RouteUpdate 120 40 (mkSlice 7 0 3).

Definition samplePairs : list (N * Event) :=
  [(1%N, evLate); (2%N, evOwn); (3%N, evEarly)].

(** An advert of the router's own originations only. *)
Definition ownMemory : Memory :=
  mkMemory (list_to_map [(1%N, evOwn)]) (list_to_map [(7%N, [1%N; 1%N])]).

Definition ownAdvert : Advert :=
  mkAdvert "peer-1" RouteUpdate 120 40 (mkSlice 7 0 2).

(** The spec's scenario of a wipe: the table holds three cart routes under
    prod and one auth route; the registry reports cart deleted, no node
    left. *)
Definition cartService : RegService :=
  mkService "cart" "1.0" None
    [mkNode "cart-1" "10.0.0.1:8080" None; mkNode "cart-2" "10.0.0.2:8080" None;
     mkNode "cart-3" "10.0.0.3:8080" None].

Definition authService : RegService :=
  mkService "auth" "1.0" None [mkNode "auth-1" "10.0.1.1:8080" None].

Definition cartTable : tstate specTable :=
  fst (manageRoutes optsAll authService "create" "prod"
         (fst (manageRoutes optsAll cartService "create" "prod" emptyTable))).

(** A running router with a pending table event and two subscribers. *)
Definition runningRouter : rtr :=
  mkRtr true optsAll ChanOpen (Some [evUpdate1])
        (list_to_map [("sub-a", []); ("sub-b", [sampleAdvert])]).

(** ** The router facade: subscriptions *)

(** [flushRouteEvents]: one event per route the table's query returned for
    the advertising strategy. [queried] is what [r.table.Query] returned,
    [clock i] the reading of [time.Now] for the i-th event. The error
    [ErrRouteNotFound] of the query is let through. *)
Definition flushRouteEvents (evType : EventType) (clock : nat -> Z)
    (queried : list Route * option error) : list Event * option error :=
  let events := imap (fun i route => mkEvent evType (clock i) route) (fst queried) in
  match snd queried with
  | Some err =>
      if decide (err = ErrRouteNotFound) then (events, None) else ([], Some err)
  | None => (events, None)
  end.

(** What [Advertise] returns: the subscriber's channel, named by its id, or
    the error "failed to flush routes: %s". *)
Inductive advertiseResult :=
  | Subscribed (id : string)
  | FailedFlush (cause : error).

(** The method [Advertise] of the router ([rtr_Advertise] here, the name
    being the strategy field of the options) registers a subscriber under
    [id] (the fresh uuid) with an empty channel. On a router that is not advertising yet ([eventChan] is
    nil) it first flushes the table, makes the event channel and starts
    [publishAdvert] with the announcement: the third component is the calls
    of [publishAdvert] it launched. *)
Definition rtr_Advertise (id : string) (clock : nat -> Z)
    (queried : list Route * option error) (r : rtr)
    : rtr * advertiseResult * list (AdvertType * list Event) :=
  match eventChan r with
  | Some _ =>
      (mkRtr (running r) (options r) (exit r) (eventChan r)
             (<[id := []]> (subscribers r)),
       Subscribed id, [])
  | None =>
      match flushRouteEvents Create clock queried with
      | (_, Some err) => (r, FailedFlush err, [])
      | (events, None) =>
          (mkRtr (running r) (options r) (exit r) (Some [])
                 (<[id := []]> (subscribers r)),
           Subscribed id, [(Announce, events)])
      end
  end.

(** ** Publishing an advert *)

(** [DefaultAdvertTTL], two minutes in nanoseconds, and the capacity of a
    subscriber channel, which [Advertise] makes with room for 128 adverts. *)
Definition DefaultAdvertTTL : Z := 2 * 60 * 1000000000.
Definition subscriberCap : nat := 128.

(** A receive from the channel is ready: the channel is closed. *)
Definition isClosed (c : chanState) : bool :=
  match c with
  | ChanClosed => true
  | _ => false
  end.

(** How a call of [publishAdvert] ended: every subscriber was served, the
    exit channel fired, or the send to a subscriber is waiting for room. *)
Inductive publishOutcome :=
  | Published
  | Aborted
  | BlockedOn (id : string).

(** The loop [for _, sub := range r.subscribers] with its [select]: the
    send is ready when the channel has room, the receive from the exit
    channel when that channel is closed; when both are ready Go picks one,
    here [pick id] says whether it is the send. *)
Fixpoint publishLoop (pick : string -> bool) (exitClosed : bool) (a : Advert)
    (l : list (string * list Advert)) (subs : gmap string (list Advert))
    : gmap string (list Advert) * publishOutcome :=
  match l with
  | [] => (subs, Published)
  | (id, buffer) :: l' =>
      if bool_decide (length buffer < subscriberCap)%nat && (negb exitClosed || pick id)
      then publishLoop pick exitClosed a l' (<[id := buffer ++ [a]]> subs)
      else if exitClosed then (subs, Aborted)
      else (subs, BlockedOn id)
  end.

(** [publishAdvert] publishes a router advert to the subscribers; [now] is
    the reading of [time.Now]. *)
Definition publishAdvert (pick : string -> bool) (advType : AdvertType)
    (events : slice) (now : Z) (r : rtr) : rtr * publishOutcome :=
  let a := mkAdvert (Id (options r)) advType DefaultAdvertTTL now events in
  let '(subs, outcome) :=
    publishLoop pick (isClosed (exit r)) a
                (map_to_list (subscribers r)) (subscribers r) in
  (mkRtr (running r) (options r) (exit r) (eventChan r) subs, outcome).

(** ** More vocabulary *)

(** The errors [manageRoute] makes: a wrapped table error or an unknown
    action. *)
Definition manageError (err : error) : Prop :=
  match err with
  | FailedAdding _ _ | FailedDeleting _ _ | FailedUpdating _ _ | UnknownAction _ _ => True
  | _ => False
  end.


(** What a recorded call does to the table: the table the mutator returns. *)
Definition applyCall {T : Type} {tableOps : Table T} (c : TableCall) (t : T) : T :=
  match c with
  | CallCreate r => fst (tCreate r t)
  | CallUpdate r => fst (tUpdate r t)
  | CallDelete r => fst (tDelete r t)
  | CallDeleteService service network => tDeleteService service network t
  end.

(** The table after a sequence of calls, applied in order. *)
Definition applyCalls {T : Type} {tableOps : Table T} (l : list TableCall) (t : T) : T :=
  fold_left (fun t c => applyCall c t) l t.



(** The default gateway route of [start]. *)
Definition gatewayRoute (opts : Options) : Route :=
  {| Service := "*"; Address := "*"; Gateway := opt_Gateway opts;
     Network := "*"; Router := Id opts; Link := DefaultLink;
     Metric := DefaultLocalMetric; Metadata := None |}.

(** The event inputs of the engine that carry an event. *)
Definition inputEvents (inputs : list engineInput) : list Event :=
  omap (fun i => match i with EventChan (Some e) => Some e | _ => None end) inputs.

Definition notNilInput (i : engineInput) : bool :=
  match i with
  | EventChan None => false
  | _ => true
  end.

(** The table state [start] reaches before it adds the gateway route. *)
Definition preloaded {T : Type} {tableOps : Table T} (reg : Registry) (r : rtr)
    (st : tstate T) : tstate T * option error :=
  if Precache (options r) then loadRoutes (options r) reg st else (st, None).

(** An advert the engine may publish over the inputs: an update, not
    empty, with at most one event per fingerprint, each event one the
    engine received and the strategy lets through. *)
Definition advertOk (Hash : Route -> Z) (opts : Options) (inputs : list engineInput)
    (p : AdvertType * list Event) : Prop :=
  fst p = RouteUpdate
  /\ snd p <> []
  /\ NoDup (map (fun e => Hash (ev_Route e)) (snd p))
  /\ Forall (fun e => skipLocal opts e = false /\ e ∈ inputEvents inputs) (snd p).

(** A router configured with a default gateway, a registry that lists the
    cart service, and the router stopped again after a first run. *)
Definition optsGateway : Options := mkOptions "self" "10.0.0.254:8080" AdvertiseAll false.

Definition sampleRegistry : Registry :=
  mkRegistry (inl [cartService]) (fun _ _ => inr (ErrOther "unreachable")).

Definition stoppedRouter : rtr := mkRtr false optsGateway ChanClosed None ∅.

(** An advert with an event of a type [manageRoute] does not know. *)
Definition evBad : Event := mkEvent (OtherType 7) 15 cartPeer.

Definition badMemory : Memory :=
  mkMemory (list_to_map [(1%N, evBad)]) (list_to_map [(7%N, [1%N])]).

Definition badAdvert : Advert := mkAdvert "peer-1" RouteUpdate 120 40 (mkSlice 7 0 1).

(** The events of [sampleAdvert] in two orders, in one memory. *)
Definition twoOrders : Memory :=
  mkMemory (list_to_map [(1%N, evLate); (2%N, evOwn); (3%N, evEarly)])
           (list_to_map [(7%N, [1%N; 2%N; 3%N]); (8%N, [3%N; 1%N; 2%N])]).

Definition shuffledAdvert : Advert :=
  mkAdvert "peer-1" RouteUpdate 120 40 (mkSlice 8 0 3).

(** * Domain resolution *)

(** C7: the resolved domain is the service metadata's non-empty "domain";
    otherwise the "domain" entry of the first node's metadata when the
    service has a node and that node has metadata; otherwise "default". *)
Theorem getDomain_precedence (srv : RegService) :
  (forall md v, svc_Metadata srv = Some md -> md !! "domain" = Some v ->
     v <> "" -> getDomain srv = v) /\
  (mapIndex (svc_Metadata srv) "domain" = "" ->
     forall n rest md, svc_Nodes srv = n :: rest -> node_Metadata n = Some md ->
       getDomain srv = default "" (md !! "domain")) /\
  (mapIndex (svc_Metadata srv) "domain" = "" ->
     svc_Nodes srv = [] \/
     (exists n rest, svc_Nodes srv = n :: rest /\ node_Metadata n = None) ->
     getDomain srv = "default").
Proof.
  unfold getDomain. split; [|split].
  - intros md v Hmd Hv Hne. rewrite Hmd. unfold mapIndex. rewrite Hv.
    cbn [default]. case_decide as Hd; [reflexivity|].
    exfalso. destruct v as [|c v']; [congruence|]. cbn in Hd. lia.
  - intros Hno n rest md Hn Hm. rewrite Hno. cbn [String.length].
    case_decide as Hd; [lia|]. rewrite Hn, Hm. reflexivity.
  - intros Hno Hnodes. rewrite Hno. cbn [String.length].
    case_decide as Hd; [lia|].
    destruct Hnodes as [-> | (n & rest & -> & ->)]; reflexivity.
Qed.

Example getDomain_service_metadata :
  getDomain (mkService "cart" "1.0" (Some {["domain" := "prod"]})
               [mkNode "n1" "10.0.0.1:8080" (Some {["domain" := "dev"]})]) = "prod".
Proof. reflexivity. Qed.

Example getDomain_first_node :
  getDomain (mkService "cart" "1.0" (Some {["domain" := ""]})
               [mkNode "n1" "10.0.0.1:8080" (Some {["domain" := "dev"]});
                mkNode "n2" "10.0.0.2:8080" (Some {["domain" := "qa"]})]) = "dev".
Proof. reflexivity. Qed.

Example getDomain_fallback :
  getDomain (mkService "cart" "1.0" None [mkNode "n1" "10.0.0.1:8080" None]) = "default"
  /\ getDomain (mkService "cart" "1.0" None []) = "default".
Proof. split; reflexivity. Qed.

(** * Loops with an early return *)

Lemma forEach_app {S A E : Type} (body : A -> S -> S * option E) (l1 l2 : list A) (s : S) :
  forEach body (l1 ++ l2) s =
  match forEach body l1 s with
  | (s', Some err) => (s', Some err)
  | (s', None) => forEach body l2 s'
  end.
Proof.
  revert s. induction l1 as [|x l1 IH]; intros s; simpl; [reflexivity|].
  destruct (body x s) as [s' [err|]]; [reflexivity|]. apply IH.
Qed.

(** The first failing iteration ends the loop with its state and error. *)
Lemma forEach_abort {S A E : Type} (body : A -> S -> S * option E)
    (pre post : list A) (x : A) (s s1 s2 : S) (err : E) :
  forEach body pre s = (s1, None) ->
  body x s1 = (s2, Some err) ->
  forEach body (pre ++ x :: post) s = (s2, Some err).
Proof.
  intros Hpre Hx. rewrite forEach_app, Hpre. simpl. rewrite Hx. reflexivity.
Qed.

Lemma applyCalls_app {T : Type} {tableOps : Table T} (l1 l2 : list TableCall) (t : T) :
  applyCalls (l1 ++ l2) t = applyCalls l2 (applyCalls l1 t).
Proof. unfold applyCalls. apply fold_left_app. Qed.

(** * The reconciliation path *)

Section ReconcileFacts.
Context {T : Type} {tableOps : Table T}.

Lemma manageRoute_calls (route : Route) (action : string) (st : tstate T) :
  calls (fst (manageRoute route action st)) = calls st ++ actionCall route action.
Proof.
  unfold manageRoute, actionCall, callCreate, callDelete, callUpdate.
  repeat case_decide; subst;
    repeat match goal with
    | |- context [tCreate ?r ?t] => destruct (tCreate r t) as [? [?|]]
    | |- context [tDelete ?r ?t] => destruct (tDelete r t) as [? [?|]]
    | |- context [tUpdate ?r ?t] => destruct (tUpdate r t) as [? [?|]]
    | |- context [decide ?P] => destruct (decide P)
    end; simpl; rewrite ?app_nil_r; reflexivity.
Qed.

(** The table [manageRoute] leaves is the one its call returned. *)
Lemma manageRoute_table (route : Route) (action : string) (st : tstate T) :
  table (fst (manageRoute route action st))
  = applyCalls (actionCall route action) (table st).
Proof.
  unfold manageRoute, actionCall, callCreate, callDelete, callUpdate, applyCalls.
  repeat case_decide; subst; cbn [fold_left applyCall];
    repeat match goal with
    | |- context [tCreate ?r ?t] => destruct (tCreate r t) as [? [?|]]
    | |- context [tDelete ?r ?t] => destruct (tDelete r t) as [? [?|]]
    | |- context [tUpdate ?r ?t] => destruct (tUpdate r t) as [? [?|]]
    | |- context [decide ?P] => destruct (decide P)
    end; reflexivity.
Qed.

Lemma actionCall_String (e : Event) :
  actionCall (ev_Route e) (EventType_String (ev_Type e)) = eventCall e.
Proof. unfold actionCall, eventCall. destruct (ev_Type e); reflexivity. Qed.

End ReconcileFacts.

(** * The registry watch loop *)

Section WatchFacts.
Context {T : Type} {tableOps : Table T}.

(** C10: a watch result whose Service is nil leaves the table and the
    record of calls as they are, and the loop goes on with the next result:
    it neither returns an error nor ends. *)
Theorem watchRegistry_skips_nil_service (opts : Options) (actions : list string)
    (action : string) (rest : list nextResult) (st : tstate T) :
  watchRegistry opts (NextOk (mkResult action None) :: rest) st
  = watchRegistry opts rest st
  /\ watchRegistry opts [NextOk (mkResult action None)] st = (st, Waiting)
  /\ watchRegistry opts (map (fun a => NextOk (mkResult a None)) actions ++ rest) st
     = watchRegistry opts rest st.
Proof.
  split; [reflexivity|]. split; [reflexivity|].
  induction actions as [|a actions IH]; simpl; [reflexivity|exact IH].
Qed.

(** With no node and a delete action, [manageRoutes] is one call of
    [deleteService], for any table. *)
Lemma manageRoutes_delete_no_nodes (opts : Options) (service : RegService)
    (action network : string) (st : tstate T) :
  svc_Nodes service = [] -> ToLower action = "delete" ->
  manageRoutes opts service action network st
  = (callDeleteService (svc_Name service) network st, None).
Proof.
  intros Hn Ha. unfold manageRoutes, createRoutes. rewrite Hn, Ha. reflexivity.
Qed.

End WatchFacts.

(** * Wiping a service from the spec's table *)

Section DeleteServiceFacts.
Variable Hash : Route -> Z.

Lemma map_to_list_filter_Permutation {A : Type} (P : Z * A -> Prop)
    `{!forall x, Decision (P x)} (m : gmap Z A) :
  map_to_list (filter P m) ≡ₚ filter P (map_to_list m).
Proof.
  apply NoDup_Permutation.
  - apply NoDup_map_to_list.
  - apply NoDup_filter, NoDup_map_to_list.
  - intros [k x]. rewrite elem_of_map_to_list, map_lookup_filter_Some.
    rewrite list_elem_of_filter, elem_of_map_to_list. tauto.
Qed.

Lemma specDeleteService_lookup (service network : string) (t : specTable)
    (key : Z) (r : Route) (seen : Z) :
  routes (specDeleteService service network t) !! key = Some (r, seen)
  <-> routes t !! key = Some (r, seen) /\ ofService service network r = false.
Proof.
  unfold specDeleteService. simpl. rewrite map_lookup_filter_Some. simpl. tauto.
Qed.

(** C5: on a delete action for a service without nodes, [manageRoutes]
    makes the single call [deleteService(service.Name, network)] and
    returns success; on the spec's table this removes every route of the
    service in the network, keeps every other route, and emits one Delete
    event per removed route: k events for k routes held. *)
Theorem manageRoutes_delete_wipes_service (opts : Options) (service : RegService)
    (action network : string) (st : tstate specTable) :
  svc_Nodes service = [] -> ToLower action = "delete" ->
  exists (st' : tstate specTable) (removed : list (Z * (Route * Z))),
    manageRoutes (tableOps := specTableOps Hash) opts service action network st
      = (st', None)
    /\ calls st' = calls st ++ [CallDeleteService (svc_Name service) network]
    /\ (forall key r seen,
          routes (table st') !! key = Some (r, seen)
          <-> routes (table st) !! key = Some (r, seen)
              /\ ofService (svc_Name service) network r = false)
    /\ removed = filter (fun kv => ofService (svc_Name service) network (fst (snd kv)) = true)
                        (map_to_list (routes (table st)))
    /\ size (routes (table st)) = (length removed + size (routes (table st')))%nat
    /\ emitted (table st')
       = emitted (table st)
         ++ map (fun kv => mkEvent Delete (now (table st)) (fst (snd kv))) removed.
Proof.
  intros Hn Ha.
  rewrite (manageRoutes_delete_no_nodes (tableOps := specTableOps Hash)) by assumption.
  eexists _, _. split; [reflexivity|].
  split; [reflexivity|].
  split; [intros key r seen; apply specDeleteService_lookup|].
  split; [reflexivity|].
  split; [|reflexivity].
  simpl. unfold specDeleteService. simpl.
  rewrite <- !length_map_to_list.
  rewrite (map_to_list_filter_Permutation
             (fun kv => ofService (svc_Name service) network (fst (snd kv)) = false)).
  rewrite <- length_app.
  apply Permutation_length. symmetry.
  etransitivity; [|apply (filter_app_complement
     (fun kv : Z * (Route * Z) => ofService (svc_Name service) network (fst (snd kv)) = true))].
  apply Permutation_app; [reflexivity|].
  rewrite (list_filter_iff
    (fun kv : Z * (Route * Z) => ofService (svc_Name service) network (fst (snd kv)) = false)
    (fun kv => ~ ofService (svc_Name service) network (fst (snd kv)) = true));
    [reflexivity|].
  intros [k [r s]]. simpl.
  destruct (ofService (svc_Name service) network r); split; congruence.
Qed.

End DeleteServiceFacts.

(** * Sorting a slice *)

Section SortFacts.
Context {A : Type} (key : A -> Z).

Lemma insertLeft_Permutation (x : A) (l : list A) :
  insertLeft (lessBy key) x l ≡ₚ x :: l.
Proof.
  induction l as [|y l IH]; simpl; [reflexivity|].
  destruct (lessBy key x y); [|reflexivity].
  rewrite IH. apply perm_swap.
Qed.

Lemma insertLeft_descending (x : A) (l : list A) :
  descending key l -> descending key (insertLeft (lessBy key) x l).
Proof.
  unfold descending. induction l as [|y l IH]; simpl; intros Hl.
  - repeat constructor.
  - apply StronglySorted_cons in Hl as [Hy Hl].
    destruct (lessBy key x y) eqn:Hlt; unfold lessBy in Hlt.
    + apply Z.ltb_lt in Hlt. constructor; [apply IH, Hl|].
      rewrite (insertLeft_Permutation x l). constructor; [lia|exact Hy].
    + apply Z.ltb_ge in Hlt. constructor.
      * constructor; assumption.
      * constructor; [exact Hlt|].
        eapply Forall_impl; [exact Hy|]. intros z Hz. simpl in Hz. lia.
Qed.

Lemma insertion_loop_Permutation (l acc : list A) :
  fold_left (fun revPrefix x => insertLeft (lessBy key) x revPrefix) l acc ≡ₚ l ++ acc.
Proof.
  revert acc. induction l as [|x l IH]; intros acc; simpl; [reflexivity|].
  rewrite IH, insertLeft_Permutation. symmetry. apply Permutation_middle.
Qed.

Lemma insertion_loop_descending (l acc : list A) :
  descending key acc ->
  descending key (fold_left (fun revPrefix x => insertLeft (lessBy key) x revPrefix) l acc).
Proof.
  revert acc. induction l as [|x l IH]; intros acc Hacc; simpl; [exact Hacc|].
  apply IH, insertLeft_descending, Hacc.
Qed.

Lemma descending_rev (l : list A) : descending key l -> ascending key (rev l).
Proof.
  unfold descending, ascending. induction l as [|x l IH]; simpl; intros Hl.
  - constructor.
  - apply StronglySorted_cons in Hl as [Hx Hl].
    apply StronglySorted_app_2.
    + intros x1 x2 H1 H2. apply list_elem_of_singleton in H2 as ->.
      rewrite Forall_forall in Hx. apply Hx.
      apply list_elem_of_In. apply in_rev. apply list_elem_of_In. exact H1.
    + apply IH, Hl.
    + repeat constructor.
Qed.

Lemma sortSlice_Permutation (l : list A) : sortSlice (lessBy key) l ≡ₚ l.
Proof.
  unfold sortSlice. rewrite <- Permutation_rev, insertion_loop_Permutation.
  rewrite app_nil_r. reflexivity.
Qed.

Lemma sortSlice_ascending (l : list A) : ascending key (sortSlice (lessBy key) l).
Proof.
  unfold sortSlice. apply descending_rev, insertion_loop_descending. constructor.
Qed.

Lemma sortSlice_length (l : list A) : length (sortSlice (lessBy key) l) = length l.
Proof. apply Permutation_length, sortSlice_Permutation. Qed.

End SortFacts.

(** * The heap of [Process] *)

Lemma derefAll_objects (m m' : Memory) (ptrs : list N) :
  objects m' = objects m -> derefAll m' ptrs = derefAll m ptrs.
Proof. intros Heq. unfold derefAll, deref. rewrite Heq. reflexivity. Qed.

Lemma derefAll_fst (m : Memory) (ptrs : list N) (pes : list (N * Event)) :
  derefAll m ptrs = Some pes -> map fst pes = ptrs.
Proof.
  unfold derefAll. rewrite mapM_Some.
  induction 1 as [|p pe ptrs pes Hp _ IH]; simpl; [reflexivity|].
  rewrite IH. destruct (deref m p); [|discriminate].
  injection Hp as <-. reflexivity.
Qed.

Lemma derefAll_snd (m : Memory) (ptrs : list N) (pes : list (N * Event)) :
  derefAll m ptrs = Some pes -> Forall2 (fun p e => deref m p = Some e) ptrs (map snd pes).
Proof.
  unfold derefAll. rewrite mapM_Some.
  induction 1 as [|p pe ptrs pes Hp _ IH]; simpl; constructor; [|exact IH].
  destruct (deref m p); [|discriminate]. injection Hp as <-. reflexivity.
Qed.

Lemma sliceRead_whole (m : Memory) (a : N) (l : list N) :
  arrays m !! a = Some l -> sliceRead m (mkSlice a 0 (length l)) = Some l.
Proof.
  intros Hl. unfold sliceRead. simpl.
  case_decide as Hz.
  - destruct l; [reflexivity|discriminate].
  - rewrite Hl. rewrite decide_True by lia.
    rewrite drop_0, take_ge by lia. reflexivity.
Qed.

Lemma copySlice_fresh (m : Memory) (ptrs : list N) :
  copySlice
    (mkMemory (objects m)
       (<[fresh (dom (arrays m)) := replicate (length ptrs) 0%N]> (arrays m)))
    (mkSlice (fresh (dom (arrays m))) 0 (length ptrs)) ptrs
  = processMemory m ptrs.
Proof.
  unfold copySlice, sliceWrite, processMemory. simpl. f_equal.
  rewrite take_ge by lia. rewrite alter_insert_eq. f_equal.
  rewrite drop_ge by (rewrite length_replicate; lia).
  apply app_nil_r.
Qed.

Lemma sliceWrite_fresh (m : Memory) (l k : list N) :
  length k = length l ->
  sliceWrite (processMemory m l) (mkSlice (fresh (dom (arrays m))) 0 (length l)) k
  = processMemory m k.
Proof.
  intros Hlen. unfold sliceWrite, processMemory. simpl. f_equal.
  rewrite alter_insert_eq. f_equal.
  rewrite drop_ge by lia. apply app_nil_r.
Qed.

Lemma sliceRead_fresh (m : Memory) (l : list N) :
  sliceRead (processMemory m l) (mkSlice (fresh (dom (arrays m))) 0 (length l)) = Some l.
Proof. apply sliceRead_whole. unfold processMemory. simpl. apply lookup_insert_eq. Qed.

Lemma lessTimestamp_lessBy :
  lessTimestamp = lessBy (fun pe : N * Event => Timestamp (snd pe)).
Proof. reflexivity. Qed.

Section ProcessFacts.
Context {T : Type} {tableOps : Table T}.

(** [Process] on a well-formed advert: it returns, leaving the sorted copy
    in fresh memory and the table as the loop over the sorted events made
    it. *)
Lemma Process_unfold (opts : Options) (a : Advert) (m : Memory) (st : tstate T)
    (ptrs : list N) (pes : list (N * Event)) :
  sliceRead m (Events a) = Some ptrs ->
  derefAll m ptrs = Some pes ->
  Process opts a m st
  = Some (processMemory m (map fst (sortSlice lessTimestamp pes)),
          fst (forEach (processEvent opts) (map snd (sortSlice lessTimestamp pes)) st),
          snd (forEach (processEvent opts) (map snd (sortSlice lessTimestamp pes)) st)).
Proof.
  intros Hread Hderef. unfold Process, makeSlice. rewrite Hread.
  cbv beta iota zeta.
  rewrite copySlice_fresh, sliceRead_fresh.
  rewrite (derefAll_objects m) by reflexivity.
  rewrite Hderef.
  destruct (forEach (processEvent opts) (map snd (sortSlice lessTimestamp pes)) st)
    as [st' err]. simpl.
  rewrite sliceWrite_fresh; [reflexivity|].
  rewrite length_map, lessTimestamp_lessBy, sortSlice_length.
  rewrite <- (derefAll_fst m ptrs pes Hderef), length_map. reflexivity.
Qed.

Lemma processEvent_own (opts : Options) (e : Event) (st : tstate T) :
  ~ foreign opts e -> processEvent opts e st = (st, None).
Proof.
  unfold foreign, processEvent. intros Hown.
  case_decide as Hd; [reflexivity|]. exfalso. exact (Hown Hd).
Qed.

Lemma processEvent_calls (opts : Options) (e : Event) (st : tstate T) :
  foreign opts e ->
  calls (fst (processEvent opts e st)) = calls st ++ eventCall e.
Proof.
  unfold foreign, processEvent. intros Hf.
  rewrite decide_False by exact Hf. cbv zeta.
  rewrite <- actionCall_String, <- manageRoute_calls.
  destruct (manageRoute _ _ st) as [st' [err|]]; reflexivity.
Qed.

(** The loop of [Process] applies a prefix of the foreign events, in the
    order of the list: all of them when it ends without error. *)
Lemma forEach_processEvent_calls (opts : Options) (l : list Event) (st : tstate T) :
  exists applied,
    applied `prefix_of` filter (foreign opts) l
    /\ calls (fst (forEach (processEvent opts) l st))
       = calls st ++ flat_map eventCall applied
    /\ (snd (forEach (processEvent opts) l st) = None ->
        applied = filter (foreign opts) l).
Proof.
  revert st. induction l as [|x l IH]; intros st.
  - exists []. simpl. rewrite app_nil_r. repeat split. apply prefix_nil.
  - destruct (decide (foreign opts x)) as [Hf|Hown].
    + rewrite filter_cons_True by exact Hf. simpl.
      pose proof (processEvent_calls opts x st Hf) as Hc.
      destruct (processEvent opts x st) as [st1 [err|]]; simpl in *.
      * exists [x]. simpl. rewrite app_nil_r.
        split; [apply prefix_cons, prefix_nil|]. split; [exact Hc|discriminate].
      * destruct (IH st1) as (applied & Hp & Hcalls & Hall).
        exists (x :: applied). split; [apply prefix_cons, Hp|].
        split.
        -- rewrite Hcalls, Hc. simpl. rewrite <- app_assoc. reflexivity.
        -- intros Hnone. rewrite (Hall Hnone). reflexivity.
    + rewrite filter_cons_False by exact Hown. simpl.
      rewrite (processEvent_own opts x st Hown). apply IH.
Qed.

Lemma processEvent_table (opts : Options) (e : Event) (st : tstate T) :
  foreign opts e ->
  table (fst (processEvent opts e st)) = applyCalls (eventCall e) (table st).
Proof.
  unfold foreign, processEvent. intros Hf.
  rewrite decide_False by exact Hf. cbv zeta.
  rewrite <- actionCall_String, <- manageRoute_table.
  destruct (manageRoute _ _ st) as [st' [err|]]; reflexivity.
Qed.

(** The loop of [Process] applies a prefix of the foreign events, in the
    order of the list, all of them when it ends without error: the calls it
    records are theirs, and the table it leaves is the table after these
    calls. *)
Lemma forEach_processEvent_applied (opts : Options) (l : list Event) (st : tstate T) :
  exists applied,
    applied `prefix_of` filter (foreign opts) l
    /\ calls (fst (forEach (processEvent opts) l st))
       = calls st ++ flat_map eventCall applied
    /\ table (fst (forEach (processEvent opts) l st))
       = applyCalls (flat_map eventCall applied) (table st)
    /\ (snd (forEach (processEvent opts) l st) = None ->
        applied = filter (foreign opts) l).
Proof.
  revert st. induction l as [|x l IH]; intros st.
  - exists []. simpl. rewrite app_nil_r. repeat split. apply prefix_nil.
  - destruct (decide (foreign opts x)) as [Hf|Hown].
    + rewrite filter_cons_True by exact Hf. simpl.
      pose proof (processEvent_calls opts x st Hf) as Hc.
      pose proof (processEvent_table opts x st Hf) as Ht.
      destruct (processEvent opts x st) as [st1 [err|]]; simpl in *.
      * exists [x]. simpl. rewrite app_nil_r.
        split; [apply prefix_cons, prefix_nil|]. split; [exact Hc|].
        split; [exact Ht|discriminate].
      * destruct (IH st1) as (applied & Hp & Hcalls & Htable & Hall).
        exists (x :: applied). split; [apply prefix_cons, Hp|].
        split; [|split].
        -- rewrite Hcalls, Hc. simpl. rewrite <- app_assoc. reflexivity.
        -- rewrite Htable, Ht. simpl. rewrite applyCalls_app. reflexivity.
        -- intros Hnone. rewrite (Hall Hnone). reflexivity.
    + rewrite filter_cons_False by exact Hown. simpl.
      rewrite (processEvent_own opts x st Hown). apply IH.
Qed.

Lemma forEach_processEvent_own (opts : Options) (l : list Event) (st : tstate T) :
  Forall (fun e => Router (ev_Route e) = Id opts) l ->
  forEach (processEvent opts) l st = (st, None).
Proof.
  induction 1 as [|x l Hx _ IH]; simpl; [reflexivity|].
  rewrite processEvent_own; [exact IH|]. unfold foreign. intros Hf. exact (Hf Hx).
Qed.

Lemma eventCall_route (e : Event) (c : TableCall) (r : Route) :
  c ∈ eventCall e -> callRoute c = Some r -> r = ev_Route e.
Proof.
  unfold eventCall. destruct (ev_Type e); intros Hin Hr;
    try (apply list_elem_of_singleton in Hin as ->; simpl in Hr; congruence).
  apply elem_of_nil in Hin. contradiction.
Qed.

Lemma sortedEvents_Permutation (pes : list (N * Event)) :
  sortedEvents pes ≡ₚ map snd pes.
Proof.
  unfold sortedEvents. rewrite lessTimestamp_lessBy, sortSlice_Permutation. reflexivity.
Qed.

Lemma sortedEvents_sorted (pes : list (N * Event)) :
  StronglySorted notAfter (sortedEvents pes).
Proof.
  unfold sortedEvents. rewrite lessTimestamp_lessBy.
  apply (StronglySorted_fmap snd
           (fun a b : N * Event => Timestamp (snd a) <= Timestamp (snd b)) notAfter).
  - intros x y Hxy. exact Hxy.
  - apply (sortSlice_ascending (fun pe : N * Event => Timestamp (snd pe))).
Qed.

Lemma StronglySorted_sublist {A : Type} (R : relation A) (l1 l2 : list A) :
  l1 `sublist_of` l2 -> StronglySorted R l2 -> StronglySorted R l1.
Proof.
  induction 1 as [|x l1 l2 Hsub IH|x l1 l2 Hsub IH]; intros Hs.
  - constructor.
  - apply StronglySorted_cons in Hs as [Hx Hs]. constructor; [apply IH, Hs|].
    rewrite Forall_forall in *. intros y Hy. apply Hx.
    eapply elem_of_sublist; eassumption.
  - apply StronglySorted_cons in Hs as [_ Hs]. apply IH, Hs.
Qed.

End ProcessFacts.

(** * Inbound adverts *)

Section ProcessTheorems.
Context {T : Type} {tableOps : Table T}.

(** C3: [Process] skips every event whose Route.Router is this router's
    id: no call it makes on the table names such a route; and when all
    events of the advert are the router's own, it makes no call, leaves the
    table as it is and returns success. *)
Theorem Process_skips_own_routes (opts : Options) (a : Advert) (m : Memory)
    (st : tstate T) (ptrs : list N) (pes : list (N * Event)) :
  sliceRead m (Events a) = Some ptrs ->
  derefAll m ptrs = Some pes ->
  exists m' st' err new,
    Process opts a m st = Some (m', st', err)
    /\ calls st' = calls st ++ new
    /\ Forall (fun c => forall r, callRoute c = Some r -> Router r <> Id opts) new
    /\ (Forall (fun pe => Router (ev_Route (snd pe)) = Id opts) pes ->
        st' = st /\ err = None).
Proof.
  intros Hread Hderef.
  destruct (forEach_processEvent_calls opts (sortedEvents pes) st)
    as (applied & Hpre & Hcalls & _).
  eexists _, _, _, (flat_map eventCall applied).
  split; [apply (Process_unfold opts a m st ptrs pes Hread Hderef)|].
  split; [exact Hcalls|]. split.
  - apply Forall_forall. intros c Hc r Hr.
    apply list_elem_of_In, in_flat_map in Hc as (e & He & Hce).
    apply list_elem_of_In in He, Hce.
    rewrite (eventCall_route e c r Hce Hr).
    assert (Hin : e ∈ filter (foreign opts) (sortedEvents pes)).
    { destruct Hpre as [k ->]. apply elem_of_app. left. exact He. }
    apply list_elem_of_filter in Hin as [Hf _]. exact Hf.
  - intros Hown.
    assert (Hall : Forall (fun e => Router (ev_Route e) = Id opts) (sortedEvents pes)).
    { rewrite sortedEvents_Permutation. apply Forall_fmap. exact Hown. }
    fold (sortedEvents pes).
    rewrite (forEach_processEvent_own opts _ st Hall). split; reflexivity.
Qed.

(** C4: [Process] applies the events in non-decreasing Timestamp order:
    the events it visits are the advert's events sorted by Timestamp,
    whatever their order in the advert; the calls it makes on the table are
    those of the foreign events among them, in that order, up to the first
    error; and the table it leaves is the table after these calls, each
    made on the table the calls before it left. *)
Theorem Process_applies_in_timestamp_order (opts : Options) (a : Advert) (m : Memory)
    (st : tstate T) (ptrs : list N) (pes : list (N * Event)) :
  sliceRead m (Events a) = Some ptrs ->
  derefAll m ptrs = Some pes ->
  exists m' st' err sorted applied,
    Process opts a m st = Some (m', st', err)
    /\ sorted ≡ₚ map snd pes
    /\ StronglySorted notAfter sorted
    /\ applied `prefix_of` filter (foreign opts) sorted
    /\ StronglySorted notAfter applied
    /\ calls st' = calls st ++ flat_map eventCall applied
    /\ table st' = applyCalls (flat_map eventCall applied) (table st)
    /\ (err = None -> applied = filter (foreign opts) sorted).
Proof.
  intros Hread Hderef.
  destruct (forEach_processEvent_applied opts (sortedEvents pes) st)
    as (applied & Hpre & Hcalls & Htable & Hall).
  eexists _, _, _, (sortedEvents pes), applied.
  split; [apply (Process_unfold opts a m st ptrs pes Hread Hderef)|].
  split; [apply sortedEvents_Permutation|].
  split; [apply sortedEvents_sorted|].
  split; [exact Hpre|].
  split; [|split; [exact Hcalls|split; [exact Htable|exact Hall]]].
  apply (StronglySorted_sublist notAfter applied (sortedEvents pes));
    [|apply sortedEvents_sorted].
  etransitivity; [|apply (sublist_filter (foreign opts))].
  destruct Hpre as [k ->]. apply sublist_inserts_r. reflexivity.
Qed.

(** C6: [manageRoute] absorbs [ErrDuplicateRoute] on create and
    [ErrRouteNotFound] on delete and returns success; every other error of
    the table, every error of Update and an unknown action come back
    wrapped; and the error ends [Process] (and [manageRoutes]) at the
    failing route: it is returned to the caller, wrapped once more by
    [Process], and no later event is applied. *)
Theorem manageRoute_error_policy (route : Route) (st : tstate T) :
  (snd (tCreate route (table st)) = Some ErrDuplicateRoute ->
     manageRoute route "create" st = (fst (callCreate route st), None)) /\
  (snd (tDelete route (table st)) = Some ErrRouteNotFound ->
     manageRoute route "delete" st = (fst (callDelete route st), None)) /\
  (forall err, snd (tCreate route (table st)) = Some err -> err <> ErrDuplicateRoute ->
     manageRoute route "create" st
     = (fst (callCreate route st), Some (FailedAdding (Service route) err))) /\
  (forall err, snd (tDelete route (table st)) = Some err -> err <> ErrRouteNotFound ->
     manageRoute route "delete" st
     = (fst (callDelete route st), Some (FailedDeleting (Service route) err))) /\
  (forall err, snd (tUpdate route (table st)) = Some err ->
     manageRoute route "update" st
     = (fst (callUpdate route st), Some (FailedUpdating (Service route) err))) /\
  (forall action, action <> "create" -> action <> "delete" -> action <> "update" ->
     manageRoute route action st = (st, Some (UnknownAction (Service route) action))) /\
  (forall opts a m ptrs pes event pre post st0 st' err,
     sliceRead m (Events a) = Some ptrs ->
     derefAll m ptrs = Some pes ->
     sortedEvents pes = pre ++ event :: post ->
     ev_Route event = route -> foreign opts event ->
     forEach (processEvent opts) pre st0 = (st, None) ->
     manageRoute route (EventType_String (ev_Type event)) st = (st', Some err) ->
     exists m',
       Process opts a m st0
       = Some (m', st', Some (FailedApplying (ev_Type event) err))) /\
  (forall opts service action network pre post st0 st' err,
     createRoutes opts service network = pre ++ route :: post ->
     forEach (fun r => manageRoute r (ToLower action)) pre st0 = (st, None) ->
     manageRoute route (ToLower action) st = (st', Some err) ->
     manageRoutes opts service action network st0 = (st', Some err)).
Proof.
  repeat split.
  - unfold manageRoute, callCreate.
    destruct (tCreate route (table st)) as [t' e]. simpl. intros ->.
    repeat case_decide; congruence.
  - unfold manageRoute, callDelete.
    destruct (tDelete route (table st)) as [t' e]. simpl. intros ->.
    repeat case_decide; congruence.
  - unfold manageRoute, callCreate.
    intros err. destruct (tCreate route (table st)) as [t' e]. simpl. intros -> Hne.
    repeat case_decide; congruence.
  - unfold manageRoute, callDelete.
    intros err. destruct (tDelete route (table st)) as [t' e]. simpl. intros -> Hne.
    repeat case_decide; congruence.
  - unfold manageRoute, callUpdate.
    intros err. destruct (tUpdate route (table st)) as [t' e]. simpl. intros ->.
    repeat case_decide; congruence.
  - unfold manageRoute. intros action H1 H2 H3. repeat case_decide; congruence.
  - intros opts a m ptrs pes event pre post st0 st' err Hread Hderef Hsorted Hr Hf Hpre Hm.
    eexists. rewrite (Process_unfold opts a m st0 ptrs pes Hread Hderef).
    fold (sortedEvents pes). rewrite Hsorted.
    rewrite (forEach_abort (processEvent opts) pre post event st0 st st'
               (FailedApplying (ev_Type event) err) Hpre); [reflexivity|].
    unfold processEvent. rewrite decide_False by exact Hf.
    cbv zeta. rewrite Hr, Hm. reflexivity.
  - intros opts service action network pre post st0 st' err Hroutes Hpre Hm.
    unfold manageRoutes. rewrite Hroutes.
    rewrite (bool_decide_eq_false_2 (length (pre ++ route :: post) = 0%nat))
      by (rewrite length_app; simpl; lia).
    rewrite andb_false_r.
    apply forEach_abort with (s1 := st); assumption.
Qed.

(** C9: [Process] does not mutate its argument: the sort runs on a freshly
    allocated copy, so after the call [a.Events] holds the same pointers in
    the same order, every array and event object of the memory is as it
    was, and the sorted pointers are in an array that did not exist
    before. *)
Theorem Process_keeps_argument (opts : Options) (a : Advert) (m : Memory)
    (st : tstate T) (ptrs : list N) (pes : list (N * Event)) :
  sliceRead m (Events a) = Some ptrs ->
  derefAll m ptrs = Some pes ->
  exists m' st' err,
    Process opts a m st = Some (m', st', err)
    /\ sliceRead m' (Events a) = Some ptrs
    /\ (forall l arr, arrays m !! l = Some arr -> arrays m' !! l = Some arr)
    /\ objects m' = objects m
    /\ arrays m !! fresh (dom (arrays m)) = None
    /\ arrays m' !! fresh (dom (arrays m)) = Some (map fst (sortSlice lessTimestamp pes)).
Proof.
  intros Hread Hderef.
  eexists _, _, _.
  split; [apply (Process_unfold opts a m st ptrs pes Hread Hderef)|].
  assert (Hfresh : arrays m !! fresh (dom (arrays m)) = None).
  { apply not_elem_of_dom, is_fresh. }
  assert (Hframe : forall l arr, arrays m !! l = Some arr ->
            arrays (processMemory m (map fst (sortSlice lessTimestamp pes))) !! l = Some arr).
  { intros l arr Hl. unfold processMemory. simpl.
    rewrite lookup_insert_ne; [exact Hl|]. intros <-. congruence. }
  split; [|split; [exact Hframe|split; [reflexivity|split; [exact Hfresh|]]]].
  - unfold sliceRead in *. case_decide as Hz; [exact Hread|].
    destruct (arrays m !! s_array (Events a)) as [arr|] eqn:Harr; [|discriminate].
    rewrite (Hframe _ _ Harr). exact Hread.
  - unfold processMemory. simpl. apply lookup_insert_eq.
Qed.

End ProcessTheorems.

(** * The aggregation map of the advert engine *)

Section EngineFacts.
Variable Hash : Route -> Z.
Variable opts : Options.

Lemma keyed_empty : keyed Hash opts ∅.
Proof. intros k ev Hk. rewrite lookup_empty in Hk. discriminate. Qed.

Lemma onEvent_keyed (e : option Event) (adv : gmap Z Event) :
  keyed Hash opts adv -> keyed Hash opts (onEvent Hash opts e adv).
Proof.
  intros Hk. unfold onEvent. destruct e as [e|]; [|exact Hk].
  case_bool_decide; [exact Hk|].
  destruct (skipLocal opts e) eqn:Hskip; [exact Hk|].
  destruct (adv !! Hash (ev_Route e)) eqn:Hl; [exact Hk|].
  intros k ev Hlk. destruct (decide (Hash (ev_Route e) = k)) as [<-|Hne].
  - rewrite lookup_insert_eq in Hlk. injection Hlk as <-. split; [reflexivity|exact Hskip].
  - rewrite lookup_insert_ne in Hlk by exact Hne. apply Hk, Hlk.
Qed.

(** An event for a hash that has an entry leaves the map as it is,
    whatever the two types. *)
Lemma onEvent_stored (e prev : Event) (adv : gmap Z Event) :
  adv !! Hash (ev_Route e) = Some prev -> onEvent Hash opts (Some e) adv = adv.
Proof.
  intros Hl. unfold onEvent. case_bool_decide; [reflexivity|].
  destruct (skipLocal opts e); [reflexivity|]. rewrite Hl. reflexivity.
Qed.

Lemma onEvent_first (e : Event) (adv : gmap Z Event) :
  Advertise opts <> AdvertiseNone -> skipLocal opts e = false ->
  adv !! Hash (ev_Route e) = None ->
  onEvent Hash opts (Some e) adv = <[Hash (ev_Route e) := e]> adv.
Proof.
  intros Hnone Hskip Hl. unfold onEvent.
  rewrite bool_decide_eq_false_2 by exact Hnone. rewrite Hskip, Hl. reflexivity.
Qed.

Lemma onEvent_other (F : Z) (e : option Event) (adv : gmap Z Event) :
  otherInput Hash F (EventChan e) -> onEvent Hash opts e adv !! F = adv !! F.
Proof.
  intros Ho. unfold onEvent. destruct e as [e|]; [|reflexivity]. simpl in Ho.
  case_bool_decide; [reflexivity|].
  destruct (skipLocal opts e); [reflexivity|].
  destruct (adv !! Hash (ev_Route e)); [reflexivity|].
  apply lookup_insert_ne. exact Ho.
Qed.

(** The range loop of a tick when the strategy lets every entry through. *)
Lemma collect_loop (l : list (Z * Event)) (events : list Event) (adv : gmap Z Event) :
  Forall (fun kv => skipLocal opts (snd kv) = false) l ->
  fold_left
    (fun acc kv =>
       if skipLocal opts (snd kv) then acc
       else (fst acc ++ [snd kv], delete (fst kv) (snd acc)))
    l (events, adv)
  = (events ++ map snd l, fold_left (fun m kv => delete (fst kv) m) l adv).
Proof.
  intros Hl. revert events adv.
  induction Hl as [|kv l Hkv _ IH]; intros events adv; simpl.
  - rewrite app_nil_r. reflexivity.
  - rewrite Hkv. simpl. rewrite IH, <- app_assoc. reflexivity.
Qed.

Lemma delete_loop_lookup {K A : Type} `{Countable K} (l : list (K * A))
    (m : gmap K A) (k : K) :
  fold_left (fun m kv => delete (fst kv) m) l m !! k
  = if decide (k ∈ map fst l) then None else m !! k.
Proof.
  revert m. induction l as [|[k' x] l IH]; intros m.
  - cbn [fold_left]. destruct (decide (k ∈ map fst [])) as [Hin|_]; [|reflexivity].
    cbn in Hin. apply elem_of_nil in Hin. contradiction.
  - cbn [fold_left fst]. rewrite IH.
    change (map fst ((k', x) :: l)) with (k' :: map fst l).
    destruct (decide (k ∈ map fst l)) as [Hin|Hnin].
    + rewrite decide_True by (right; exact Hin). reflexivity.
    + destruct (decide (k' = k)) as [->|Hne].
      * rewrite decide_True by left. apply lookup_delete_eq.
      * rewrite decide_False.
        -- apply lookup_delete_ne. exact Hne.
        -- intros Hin. apply elem_of_cons in Hin as [->|Hin]; [congruence|].
           exact (Hnin Hin).
Qed.

Lemma delete_loop_all {K A : Type} `{Countable K} (m : gmap K A) :
  fold_left (fun m kv => delete (fst kv) m) (map_to_list m) m = ∅.
Proof.
  apply map_eq. intros k. rewrite delete_loop_lookup, lookup_empty.
  case_decide as Hin; [reflexivity|].
  destruct (m !! k) as [x|] eqn:Hk; [|reflexivity].
  exfalso. apply Hin. apply list_elem_of_fmap. exists (k, x).
  split; [reflexivity|]. apply elem_of_map_to_list. exact Hk.
Qed.

Lemma collect_keyed (adv : gmap Z Event) :
  keyed Hash opts adv -> collect opts adv = (map snd (map_to_list adv), ∅).
Proof.
  intros Hk. unfold collect. rewrite collect_loop.
  - rewrite delete_loop_all. reflexivity.
  - apply Forall_forall. intros [k ev] Hin. simpl.
    apply elem_of_map_to_list in Hin. apply (Hk k ev Hin).
Qed.

(** A tick drains the whole map, and publishes when it held an entry. *)
Lemma onTick_keyed (st : engine) :
  Advertise opts <> AdvertiseNone -> keyed Hash opts (adverts st) ->
  onTick opts st
  = mkEngine ∅
      (published st ++
       if bool_decide (0 < length (map_to_list (adverts st)))%nat
       then [(RouteUpdate, map snd (map_to_list (adverts st)))] else []).
Proof.
  intros Hnone Hk. unfold onTick.
  rewrite bool_decide_eq_false_2 by exact Hnone.
  rewrite (collect_keyed _ Hk). rewrite length_map.
  case_bool_decide; [reflexivity|]. rewrite app_nil_r. reflexivity.
Qed.

Lemma engineStep_keyed (st : engine) (i : engineInput) :
  keyed Hash opts (adverts st) -> keyed Hash opts (adverts (engineStep Hash opts st i)).
Proof.
  intros Hk. destruct i as [|e]; simpl.
  - destruct (decide (Advertise opts = AdvertiseNone)) as [Hn|Hn].
    + unfold onTick. rewrite bool_decide_eq_true_2 by exact Hn. exact Hk.
    + rewrite (onTick_keyed st Hn Hk). simpl. apply keyed_empty.
  - apply onEvent_keyed, Hk.
Qed.

Lemma run_keyed (inputs : list engineInput) (st : engine) :
  keyed Hash opts (adverts st) -> keyed Hash opts (adverts (fold_left (engineStep Hash opts) inputs st)).
Proof.
  revert st. induction inputs as [|i inputs IH]; intros st Hk; simpl; [exact Hk|].
  apply IH, engineStep_keyed, Hk.
Qed.

Lemma advertiseEvents_keyed (inputs : list engineInput) :
  keyed Hash opts (adverts (advertiseEvents Hash opts inputs)).
Proof. apply run_keyed, keyed_empty. Qed.

Lemma advertiseEvents_app (l1 l2 : list engineInput) :
  advertiseEvents Hash opts (l1 ++ l2)
  = fold_left (engineStep Hash opts) l2 (advertiseEvents Hash opts l1).
Proof. unfold advertiseEvents. apply fold_left_app. Qed.

End EngineFacts.

Section Aggregation.
Variable Hash : Route -> Z.
Variable opts : Options.

Lemma windowStart_empty (pre : list engineInput) :
  Advertise opts <> AdvertiseNone -> windowStart pre ->
  adverts (advertiseEvents Hash opts pre) = ∅.
Proof.
  intros Hnone [->|Hlast]; [reflexivity|].
  apply last_Some in Hlast as [pre' ->].
  rewrite advertiseEvents_app. simpl.
  rewrite (onTick_keyed Hash opts _ Hnone (advertiseEvents_keyed Hash opts pre')).
  reflexivity.
Qed.

Lemma run_other (F : Z) (l : list engineInput) (st : engine) :
  Forall (otherInput Hash F) l ->
  adverts (fold_left (engineStep Hash opts) l st) !! F = adverts st !! F
  /\ published (fold_left (engineStep Hash opts) l st) = published st.
Proof.
  intros Hl. revert st. induction Hl as [|i l Hi _ IH]; intros st; simpl; [split; reflexivity|].
  destruct (IH (engineStep Hash opts st i)) as [-> ->].
  destruct i as [|e]; [contradiction|]. simpl.
  split; [apply onEvent_other; exact Hi|reflexivity].
Qed.

Lemma run_stored (F : Z) (prev : Event) (es : list Event) (st : engine) :
  adverts st !! F = Some prev ->
  Forall (fun x => Hash (ev_Route x) = F) es ->
  fold_left (engineStep Hash opts) (map (fun x => EventChan (Some x)) es) st = st.
Proof.
  destruct st as [adv pub]. cbn [adverts].
  intros Hprev Hes. induction Hes as [|x es Hx _ IH]; [reflexivity|].
  cbn [map fold_left engineStep adverts published].
  rewrite (onEvent_stored Hash opts x prev) by (rewrite Hx; exact Hprev).
  exact IH.
Qed.

Lemma filter_none {A : Type} (P : A -> Prop) `{!forall x, Decision (P x)} (l : list A) :
  Forall (fun x => ~ P x) l -> filter P l = [].
Proof.
  induction 1 as [|x l Hx _ IH]; [reflexivity|].
  rewrite filter_cons_False by exact Hx. exact IH.
Qed.

(** Among the events a tick drains, the one of fingerprint [F] is the
    entry of [F], once. *)
Lemma drained_of_fingerprint (F : Z) (e : Event) (adv : gmap Z Event) :
  keyed Hash opts adv -> adv !! F = Some e ->
  filter (fun x => Hash (ev_Route x) = F) (map snd (map_to_list adv)) = [e].
Proof.
  intros Hk He. apply Permutation_singleton_r.
  rewrite <- (map_to_list_delete adv F e He). simpl.
  rewrite filter_cons_True by (apply (Hk F e He)).
  apply Permutation_cons; [reflexivity|].
  rewrite filter_none; [reflexivity|].
  apply Forall_forall. intros x Hx.
  apply list_elem_of_fmap in Hx as ([k y] & -> & Hin). simpl.
  apply elem_of_map_to_list in Hin.
  destruct (decide (F = k)) as [<-|Hne].
  - rewrite lookup_delete_eq in Hin. discriminate.
  - rewrite lookup_delete_ne in Hin by exact Hne.
    destruct (Hk k y Hin) as [-> _]. congruence.
Qed.

(** C2, as the code has it: when the strategy is not AdvertiseNone and
    lets the events through, N >= 1 successive events of one type for a
    fingerprint with no earlier event in the tick window leave one entry
    for the fingerprint, the first event received, and the advert of the
    next tick has exactly one event of that fingerprint, that one. *)
Theorem same_type_events_collapse (F : Z) (pre before after : list engineInput)
    (e : Event) (es : list Event) :
  Advertise opts <> AdvertiseNone ->
  windowStart pre ->
  Forall (otherInput Hash F) before ->
  Forall (otherInput Hash F) after ->
  Hash (ev_Route e) = F ->
  skipLocal opts e = false ->
  Forall (fun x => Hash (ev_Route x) = F /\ ev_Type x = ev_Type e
                   /\ skipLocal opts x = false) es ->
  let window := before ++ map (fun x => EventChan (Some x)) (e :: es) ++ after in
  adverts (advertiseEvents Hash opts (pre ++ window)) !! F = Some e
  /\ exists events,
       published (advertiseEvents Hash opts (pre ++ window ++ [TickerC]))
       = published (advertiseEvents Hash opts (pre ++ window)) ++ [(RouteUpdate, events)]
       /\ filter (fun x => Hash (ev_Route x) = F) events = [e].
Proof.
  intros Hnone Hstart Hbefore Hafter HF Hskip Hes window.
  assert (Hentry : adverts (advertiseEvents Hash opts (pre ++ window)) !! F = Some e).
  { unfold window. rewrite advertiseEvents_app, !fold_left_app.
    rewrite (proj1 (run_other F after _ Hafter)).
    set (s0 := advertiseEvents Hash opts pre).
    set (s1 := fold_left (engineStep Hash opts) before s0).
    assert (H1 : adverts s1 !! F = None).
    { unfold s1. rewrite (proj1 (run_other F before s0 Hbefore)).
      unfold s0. rewrite (windowStart_empty pre Hnone Hstart). apply lookup_empty. }
    cbn [map fold_left]. cbn [engineStep].
    rewrite (onEvent_first Hash opts e (adverts s1) Hnone Hskip) by (rewrite HF; exact H1).
    rewrite (run_stored F e es).
    - simpl. rewrite HF. apply lookup_insert_eq.
    - simpl. rewrite HF. apply lookup_insert_eq.
    - eapply Forall_impl; [exact Hes|]. intros x Hx. apply Hx. }
  split; [exact Hentry|].
  exists (map snd (map_to_list (adverts (advertiseEvents Hash opts (pre ++ window))))).
  split.
  - replace (pre ++ window ++ [TickerC]) with ((pre ++ window) ++ [TickerC])
      by (rewrite <- app_assoc; reflexivity).
    rewrite advertiseEvents_app. simpl.
    rewrite (onTick_keyed Hash opts _ Hnone (advertiseEvents_keyed Hash opts _)).
    simpl. rewrite bool_decide_eq_true_2; [reflexivity|].
    rewrite length_map_to_list.
    destruct (decide (size (adverts (advertiseEvents Hash opts (pre ++ window))) = 0%nat))
      as [Hz|Hz]; [|lia].
    apply map_size_empty_iff in Hz. rewrite Hz, lookup_empty in Hentry. discriminate.
  - apply drained_of_fingerprint; [apply advertiseEvents_keyed|exact Hentry].
Qed.

End Aggregation.

(** * Teardown *)

Lemma closeSubscribers_loop (l : list (string * list Advert))
    (subs : gmap string (list Advert)) (done : list teardown) :
  fold_left
    (fun acc kv => (delete (fst kv) (fst acc), snd acc ++ [CloseSubscriber (fst kv)]))
    l (subs, done)
  = (fold_left (fun m kv => delete (fst kv) m) l subs,
     done ++ map (fun kv => CloseSubscriber (fst kv)) l).
Proof.
  revert subs done. induction l as [|kv l IH]; intros subs done; simpl.
  - rewrite app_nil_r. reflexivity.
  - rewrite IH, <- app_assoc. reflexivity.
Qed.

(** Every subscriber channel is closed and the map is left empty. *)
Lemma closeSubscribers_all (subs : gmap string (list Advert)) :
  closeSubscribers subs
  = (∅, map (fun kv => CloseSubscriber (fst kv)) (map_to_list subs)).
Proof.
  unfold closeSubscribers. rewrite closeSubscribers_loop, delete_loop_all. reflexivity.
Qed.

(** The invariant of [Close] holds from [NewRouter] on, and [start] and
    [Close] keep it. *)
Lemma start_started {T : Type} {tableOps : Table T} (reg : Registry) (r : rtr)
    (st : tstate T) :
  started r -> started (fst (fst (start reg r st))).
Proof.
  unfold start, started. intros Hr.
  destruct (running r) eqn:Hrun; [simpl; rewrite Hrun; exact Hr|].
  destruct (if Precache (options r) then loadRoutes (options r) reg st else (st, None))
    as [st1 [err1|]]; [simpl; rewrite Hrun; discriminate|].
  destruct (if bool_decide (opt_Gateway (options r) <> "") then _ else _)
    as [st2 [err2|]]; [simpl; rewrite Hrun; discriminate|].
  simpl. discriminate.
Qed.

Lemma NewRouter_started {T : Type} {tableOps : Table T} (opts : Options)
    (reg : Registry) (t : T) :
  started (fst (NewRouter opts reg t)).
Proof. apply start_started. unfold started. simpl. discriminate. Qed.

Lemma Close_started (r r' : rtr) (effects : list teardown) (err : option error) :
  Close r = Some (r', effects, err) -> started r'.
Proof.
  unfold Close, started. destruct r as [run o ex ec subs].
  cbn [exit running negb eventChan subscribers options].
  destruct ex; destruct run; cbn [negb];
    try discriminate;
    try (intros H; injection H as <- _ _; cbn [exit running]; discriminate).
  unfold drain. cbn [exit running negb eventChan subscribers options].
  destruct ec as [pending|];
    cbn [exit running negb eventChan subscribers options];
    destruct (closeSubscribers subs) as [subs' closed];
    intros H; injection H as <- _ _; cbn [exit running]; discriminate.
Qed.

(** C8: on a router whose running flag implies an exit channel, every call
    of [Close] returns nil; a call on a router that is already closed (exit
    channel closed, or running flag false) does no teardown and leaves the
    router as it is; and so does a second call after any first one. A first
    call on a running router closes the exit channel, empties the
    subscribers and clears the event channel and the running flag. *)
Theorem Close_idempotent (r : rtr) :
  started r ->
  exists r' effects,
    Close r = Some (r', effects, None)
    /\ Close r' = Some (r', [], None)
    /\ (exit r = ChanClosed \/ running r = false -> r' = r /\ effects = [])
    /\ (exit r = ChanOpen -> running r = true ->
        exit r' = ChanClosed /\ running r' = false /\ eventChan r' = None
        /\ subscribers r' = ∅ /\ head effects = Some CloseExit).
Proof.
  unfold started. intros Hstarted.
  destruct r as [run o ex ec subs]. simpl in *.
  destruct ex; destruct run; unfold Close;
    cbn [exit running negb eventChan subscribers options].
  - exfalso. apply Hstarted; reflexivity.
  - eexists _, _. split; [reflexivity|]. split; [reflexivity|].
    split; [intros _; split; reflexivity|]. intros; discriminate.
  - unfold drain. cbn [exit running negb eventChan subscribers options].
    destruct ec as [pending|];
      cbn [exit running negb eventChan subscribers options];
      rewrite closeSubscribers_all.
    + eexists _, _. split; [reflexivity|]. split; [reflexivity|].
      split; [intros [?|?]; discriminate|]. intros _ _. repeat split.
    + eexists _, _. split; [reflexivity|]. split; [reflexivity|].
      split; [intros [?|?]; discriminate|]. intros _ _. repeat split.
  - eexists _, _. split; [reflexivity|]. split; [reflexivity|].
    split; [intros _; split; reflexivity|]. intros; discriminate.
  - eexists _, _. split; [reflexivity|]. split; [reflexivity|].
    split; [intros _; split; reflexivity|]. intros; discriminate.
  - eexists _, _. split; [reflexivity|]. split; [reflexivity|].
    split; [intros _; split; reflexivity|]. intros; discriminate.
Qed.

(** * The claims on concrete runs *)

(** C1 on the flap of the spec's scenario: Update, Update, Delete for one
    fingerprint within one tick. Whatever the hash function, the map keeps
    the first Update (the Delete is assigned to a local variable only), and
    the advert of the tick carries that Update, not the Delete. *)
Theorem flap_publishes_first_event (Hash : Route -> Z) :
  adverts (advertiseEvents Hash optsAll
             [EventChan (Some evUpdate1); EventChan (Some evUpdate2);
              EventChan (Some evDelete)]) !! Hash cartPeer
  = Some evUpdate1
  /\ published (advertiseEvents Hash optsAll
                  [EventChan (Some evUpdate1); EventChan (Some evUpdate2);
                   EventChan (Some evDelete); TickerC])
     = [(RouteUpdate, [evUpdate1])].
Proof.
  assert (Hmap : adverts (advertiseEvents Hash optsAll
                   [EventChan (Some evUpdate1); EventChan (Some evUpdate2);
                    EventChan (Some evDelete)]) = {[Hash cartPeer := evUpdate1]}).
  { unfold advertiseEvents. cbn [fold_left engineStep adverts published].
    rewrite (onEvent_first Hash optsAll evUpdate1 ∅);
      [|discriminate|reflexivity|apply lookup_empty].
    rewrite (onEvent_stored Hash optsAll evUpdate2 evUpdate1)
      by apply lookup_insert_eq.
    rewrite (onEvent_stored Hash optsAll evDelete evUpdate1)
      by apply lookup_insert_eq.
    apply insert_empty. }
  split.
  - rewrite Hmap. apply lookup_singleton_eq.
  - change [EventChan (Some evUpdate1); EventChan (Some evUpdate2);
            EventChan (Some evDelete); TickerC]
      with ([EventChan (Some evUpdate1); EventChan (Some evUpdate2);
             EventChan (Some evDelete)] ++ [TickerC]).
    rewrite advertiseEvents_app. cbn [fold_left engineStep].
    rewrite (onTick_keyed Hash optsAll);
      [|discriminate|apply advertiseEvents_keyed].
    rewrite Hmap, map_to_list_singleton. reflexivity.
Qed.

Example flap_on_fingerprint :
  published (advertiseEvents fingerprint optsAll
               [EventChan (Some evUpdate1); EventChan (Some evUpdate2);
                EventChan (Some evDelete); TickerC])
  = [(RouteUpdate, [evUpdate1])].
Proof. vm_compute. reflexivity. Qed.

(** C2 as stated fails under the strategy AdvertiseNone: the event is
    dropped before it reaches the map, and the tick publishes nothing. *)
Lemma advertise_none_keeps_nothing :
  adverts (advertiseEvents fingerprint optsNone [EventChan (Some evUpdate1)])
    !! fingerprint cartPeer = None
  /\ published (advertiseEvents fingerprint optsNone
                  [EventChan (Some evUpdate1); TickerC]) = [].
Proof. split; vm_compute; reflexivity. Qed.

Lemma same_type_events_collapse_witness :
  adverts (advertiseEvents fingerprint optsAll
             ([] ++ [EventChan (Some evOther)]
                 ++ map (fun x => EventChan (Some x)) [evUpdate1; evUpdate2] ++ []))
    !! fingerprint cartPeer = Some evUpdate1
  /\ exists events,
       published (advertiseEvents fingerprint optsAll
                    ([] ++ ([EventChan (Some evOther)]
                        ++ map (fun x => EventChan (Some x)) [evUpdate1; evUpdate2] ++ [])
                        ++ [TickerC]))
       = published (advertiseEvents fingerprint optsAll
                      ([] ++ [EventChan (Some evOther)]
                          ++ map (fun x => EventChan (Some x)) [evUpdate1; evUpdate2] ++ []))
         ++ [(RouteUpdate, events)]
       /\ filter (fun x => fingerprint (ev_Route x) = fingerprint cartPeer) events
          = [evUpdate1].
Proof.
  apply (same_type_events_collapse fingerprint optsAll (fingerprint cartPeer)
           [] [EventChan (Some evOther)] [] evUpdate1 [evUpdate2]).
  - discriminate.
  - left. reflexivity.
  - constructor; [|constructor]. vm_compute. discriminate.
  - constructor.
  - reflexivity.
  - reflexivity.
  - constructor; [|constructor]. repeat split.
Defined.

Lemma Process_skips_own_routes_witness :
  (exists m', Process optsAll ownAdvert ownMemory emptyTable = Some (m', emptyTable, None))
  /\ (exists m' st' err,
        Process optsAll sampleAdvert sampleMemory emptyTable = Some (m', st', err)
        /\ Forall (fun c => forall r, callRoute c = Some r -> Router r <> "self") (calls st')).
Proof.
  split.
  - destruct (Process_skips_own_routes optsAll ownAdvert ownMemory emptyTable
                [1%N; 1%N] [(1%N, evOwn); (1%N, evOwn)] eq_refl eq_refl)
      as (m' & st' & err & new & HP & _ & _ & Hown).
    destruct Hown as [-> ->]; [repeat constructor|].
    exists m'. exact HP.
  - destruct (Process_skips_own_routes optsAll sampleAdvert sampleMemory emptyTable
                [1%N; 2%N; 3%N] samplePairs eq_refl eq_refl)
      as (m' & st' & err & new & HP & Hcalls & Hnew & _).
    exists m', st', err. split; [exact HP|].
    rewrite Hcalls. exact Hnew.
Defined.

Lemma Process_applies_in_timestamp_order_witness :
  exists m' st',
    Process optsAll sampleAdvert sampleMemory emptyTable = Some (m', st', None)
    /\ calls st' = [CallCreate cartOther; CallCreate cartPeer]
    /\ table st'
       = applyCalls [CallCreate cartOther; CallCreate cartPeer] (table emptyTable)
    /\ map ev_Route (emitted (table st')) = [cartOther; cartPeer].
Proof.
  destruct (Process_applies_in_timestamp_order optsAll sampleAdvert sampleMemory
              emptyTable [1%N; 2%N; 3%N] samplePairs eq_refl eq_refl)
    as (m' & st' & err & sorted & applied & HP & _ & _ & _ & _ & Hcalls & Htable & _).
  exists m', st'.
  assert (Hrun : Process optsAll sampleAdvert sampleMemory emptyTable
                 = Some (m', st', err)) by exact HP.
  vm_compute in HP. injection HP as _ Hst <-.
  assert (Hc : calls st' = [CallCreate cartOther; CallCreate cartPeer])
    by (rewrite <- Hst; reflexivity).
  assert (Hnew : flat_map eventCall applied = [CallCreate cartOther; CallCreate cartPeer])
    by (rewrite Hcalls in Hc; exact Hc).
  split; [exact Hrun|]. split; [exact Hc|].
  split; [rewrite Htable, Hnew; reflexivity|].
  rewrite <- Hst. reflexivity.
Defined.

Lemma Process_keeps_argument_witness :
  exists m' st' err,
    Process optsAll sampleAdvert sampleMemory emptyTable = Some (m', st', err)
    /\ sliceRead m' (Events sampleAdvert) = Some [1%N; 2%N; 3%N]
    /\ arrays m' !! 7%N = Some [1%N; 2%N; 3%N]
    /\ arrays m' !! fresh (dom (arrays sampleMemory)) = Some [3%N; 2%N; 1%N].
Proof.
  destruct (Process_keeps_argument optsAll sampleAdvert sampleMemory emptyTable
              [1%N; 2%N; 3%N] samplePairs eq_refl eq_refl)
    as (m' & st' & err & HP & Hread & Hframe & _ & _ & Hsorted).
  exists m', st', err. split; [exact HP|]. split; [exact Hread|].
  split; [apply Hframe; reflexivity|exact Hsorted].
Defined.

Lemma manageRoutes_delete_wipes_service_witness :
  size (routes (table cartTable)) = 4%nat
  /\ exists st',
       manageRoutes optsAll (mkService "cart" "1.0" None []) "Delete" "prod" cartTable
       = (st', None)
       /\ size (routes (table st')) = 1%nat
       /\ map ev_Type (drop (length (emitted (table cartTable))) (emitted (table st')))
          = [Delete; Delete; Delete].
Proof.
  split; [vm_compute; reflexivity|].
  destruct (manageRoutes_delete_wipes_service fingerprint optsAll
              (mkService "cart" "1.0" None []) "Delete" "prod" cartTable
              eq_refl eq_refl)
    as (st' & removed & Hrun & _ & _ & Hremoved & Hsize & Hemitted).
  exists st'. split; [exact Hrun|].
  assert (Hlen : length removed = 3%nat) by (rewrite Hremoved; vm_compute; reflexivity).
  split.
  - assert (H4 : size (routes (table cartTable)) = 4%nat) by (vm_compute; reflexivity).
    rewrite H4, Hlen in Hsize. lia.
  - rewrite Hemitted, drop_app_length, map_map.
    clear Hremoved Hsize Hemitted Hrun.
    destruct removed as [|a [|b [|c [|d removed]]]]; try discriminate Hlen.
    reflexivity.
Defined.

Lemma Close_idempotent_witness :
  exists r' effects,
    Close runningRouter = Some (r', effects, None)
    /\ Close r' = Some (r', [], None)
    /\ length effects = 5%nat
    /\ exit r' = ChanClosed /\ running r' = false /\ eventChan r' = None
    /\ subscribers r' = ∅.
Proof.
  destruct (Close_idempotent runningRouter) as (r' & effects & H1 & H2 & _ & Hdown).
  { intros _. discriminate. }
  destruct (Hdown eq_refl eq_refl) as (He & Hr & Hc & Hs & _).
  exists r', effects. split; [exact H1|]. split; [exact H2|].
  split; [|repeat split; assumption].
  vm_compute in H1. injection H1 as _ <-. reflexivity.
Defined.

(** The error policy on the spec's table: a duplicate create and a delete
    of an absent route return nil, an unknown action is an error and makes
    no call. *)
Example duplicate_create_absorbed :
  snd (manageRoute cartPeer "create" (fst (manageRoute cartPeer "create" emptyTable)))
  = None
  /\ snd (specCreate fingerprint cartPeer
            (table (fst (manageRoute cartPeer "create" emptyTable))))
     = Some ErrDuplicateRoute.
Proof. split; vm_compute; reflexivity. Qed.

Example absent_delete_absorbed :
  manageRoute cartPeer "delete" emptyTable
  = (mkTState (table emptyTable) [CallDelete cartPeer], None).
Proof. vm_compute. reflexivity. Qed.

Example unknown_action_refused :
  manageRoute cartPeer (EventType_String (OtherType 7)) emptyTable
  = (emptyTable, Some (UnknownAction "cart" "unknown")).
Proof. vm_compute. reflexivity. Qed.

(** A watch that delivers a nil service, then a create of the cart
    service, then stops: the nil entry changes nothing, the routes of the
    second result are created, and the loop returns nil. *)
Example watch_with_nil_entry :
  let run := watchRegistry optsAll
               [NextOk (mkResult "create" None);
                NextOk (mkResult "create" (Some cartService));
                NextErr ErrWatcherStopped] emptyTable in
  snd run = Returned None /\ length (calls (fst run)) = 3%nat.
Proof. split; vm_compute; reflexivity. Qed.

(** * Further properties of the reconciliation path *)

Lemma lowerAscii_idem (c : Ascii.ascii) : lowerAscii (lowerAscii c) = lowerAscii c.
Proof. destruct c as [[] [] [] [] [] [] [] []]; reflexivity. Qed.

Lemma ToLower_idem (s : string) : ToLower (ToLower s) = ToLower s.
Proof.
  induction s as [|c s IH]; simpl; [reflexivity|].
  rewrite lowerAscii_idem, IH. reflexivity.
Qed.

Section ManageRoutesFacts.
Context {T : Type} {tableOps : Table T}.

(** X1: [manageRoutes] reads the action without regard to case: an action
    and its lower-case form give the same table, calls and result. *)
Theorem manageRoutes_case_insensitive (opts : Options) (service : RegService)
    (action network : string) (st : tstate T) :
  manageRoutes opts service action network st
  = manageRoutes opts service (ToLower action) network st.
Proof. unfold manageRoutes. rewrite ToLower_idem. reflexivity. Qed.

(** X2: an action that is none of create, delete and update is refused
    with [UnknownAction] at the first route, without any call on the table;
    but for a service without nodes there is no route to refuse it at, and
    [manageRoutes] returns success. *)
Theorem manageRoutes_unknown_action (opts : Options) (service : RegService)
    (action network : string) (st : tstate T) :
  ToLower action <> "create" -> ToLower action <> "delete" ->
  ToLower action <> "update" ->
  manageRoutes opts service action network st
  = match svc_Nodes service with
    | [] => (st, None)
    | _ :: _ => (st, Some (UnknownAction (svc_Name service) (ToLower action)))
    end.
Proof.
  intros Hc Hd Hu. unfold manageRoutes, createRoutes.
  rewrite (bool_decide_eq_false_2 _ Hd). cbn [andb].
  destruct (svc_Nodes service) as [|n rest]; [reflexivity|].
  cbn [map forEach]. unfold manageRoute.
  rewrite !decide_False by assumption. reflexivity.
Qed.



(** X4: once [Next] fails the loop returns: what the watcher would deliver
    afterwards is never read, and the outcome is a return, nil on a clean
    stop. *)
Theorem watchRegistry_stops_at_error (opts : Options) (pre rest : list nextResult)
    (e : error) (st : tstate T) :
  watchRegistry opts (pre ++ NextErr e :: rest) st
  = watchRegistry opts (pre ++ [NextErr e]) st
  /\ exists err, snd (watchRegistry opts (pre ++ NextErr e :: rest) st) = Returned err.
Proof.
  revert st. induction pre as [|[res|e'] pre IH]; intros st; cbn [app watchRegistry].
  - split; [reflexivity|]. case_decide; eexists; reflexivity.
  - destruct (res_Service res) as [srv|]; [|apply IH].
    destruct (manageRoutes opts srv (Action res) (getDomain srv) st) as [st' [err|]].
    + split; [reflexivity|]. eexists; reflexivity.
    + apply IH.
  - split; [reflexivity|]. case_decide; eexists; reflexivity.
Qed.

Lemma manageRoute_manageError (route : Route) (action : string) (st : tstate T)
    (err : error) :
  snd (manageRoute route action st) = Some err -> manageError err.
Proof.
  unfold manageRoute, callCreate, callDelete, callUpdate.
  repeat case_decide;
    repeat match goal with
    | |- context [tCreate ?r ?t] => destruct (tCreate r t) as [? [?|]]
    | |- context [tDelete ?r ?t] => destruct (tDelete r t) as [? [?|]]
    | |- context [tUpdate ?r ?t] => destruct (tUpdate r t) as [? [?|]]
    | |- context [decide ?P] => destruct (decide P)
    end; cbn [snd]; intros Herr; try discriminate;
    injection Herr as <-; exact I.
Qed.

Lemma forEach_manageRoute_manageError (action : string) (routes : list Route)
    (st : tstate T) (err : error) :
  snd (forEach (fun r => manageRoute r action) routes st) = Some err -> manageError err.
Proof.
  revert st. induction routes as [|r routes IH]; intros st; cbn [forEach].
  - discriminate.
  - pose proof (manageRoute_manageError r action st) as Hr.
    destruct (manageRoute r action st) as [st1 [e|]]; cbn [snd] in *.
    + intros Herr. injection Herr as <-. apply Hr. reflexivity.
    + apply IH.
Qed.

Lemma manageRoutes_manageError (opts : Options) (service : RegService)
    (action network : string) (st : tstate T) (err : error) :
  snd (manageRoutes opts service action network st) = Some err -> manageError err.
Proof.
  unfold manageRoutes.
  destruct (bool_decide _ && bool_decide _); [discriminate|].
  apply forEach_manageRoute_manageError.
Qed.

(** X5: what [watchRegistry] returns tells what happened: it is waiting
    only when [Next] never failed; it returns nil only on the watcher's
    clean stop; and an error it returns is either the watcher's own, never
    [ErrWatcherStopped], or an error of [manageRoute]. *)
Theorem watchRegistry_outcome (opts : Options) (nexts : list nextResult)
    (st : tstate T) :
  match snd (watchRegistry opts nexts st) with
  | Waiting => forall e, NextErr e ∉ nexts
  | Returned None => NextErr ErrWatcherStopped ∈ nexts
  | Returned (Some err) =>
      err <> ErrWatcherStopped /\ (NextErr err ∈ nexts \/ manageError err)
  end.
Proof.
  revert st. induction nexts as [|[res|e'] nexts IH]; intros st; cbn [watchRegistry].
  - cbn [snd]. intros e He. apply elem_of_nil in He. exact He.
  - assert (Hstep : forall st1,
      match snd (watchRegistry opts nexts st1) with
      | Waiting => forall e, NextErr e ∉ NextOk res :: nexts
      | Returned None => NextErr ErrWatcherStopped ∈ NextOk res :: nexts
      | Returned (Some err) =>
          err <> ErrWatcherStopped
          /\ (NextErr err ∈ NextOk res :: nexts \/ manageError err)
      end).
    { intros st1. specialize (IH st1).
      destruct (snd (watchRegistry opts nexts st1)) as [[err|]|].
      - destruct IH as [Hne [Hin|Hm]]; (split; [exact Hne|]);
          [left; right; exact Hin|right; exact Hm].
      - right. exact IH.
      - intros e He. apply elem_of_cons in He as [He|He]; [discriminate|].
        exact (IH e He). }
    destruct (res_Service res) as [srv|]; [|apply Hstep].
    pose proof (manageRoutes_manageError opts srv (Action res) (getDomain srv) st) as Hm.
    destruct (manageRoutes opts srv (Action res) (getDomain srv) st) as [st' [err|]];
      [|apply Hstep].
    cbn [snd] in *. specialize (Hm err eq_refl). split; [|right; exact Hm].
    intros ->. exact Hm.
  - case_decide as He; cbn [snd].
    + subst e'. left.
    + split; [exact He|]. left. left.
Qed.

End ManageRoutesFacts.

(** * Further properties of the bring-up *)

Section BringUpFacts.
Context {T : Type} {tableOps : Table T}.








(** X7: [start] on a stopped router either fails, leaving the router as it
    was (not running, no exit channel made), with the error of the preload
    or of the gateway route wrapped; or it succeeds, and then the router is
    running with an open exit channel and its options, event channel and
    subscribers as before, a second [start] does nothing, and [Close] stops
    it: not running, exit channel closed, no event channel, no subscriber. *)
Theorem start_lifecycle (reg : Registry) (r : rtr) (st : tstate T) :
  running r = false ->
  match start reg r st with
  | (r1, st1, Some err) =>
      r1 = r /\ exists cause, err = FailedLoading cause \/ err = FailedGateway cause
  | (r1, st1, None) =>
      r1 = mkRtr true (options r) ChanOpen (eventChan r) (subscribers r)
      /\ start reg r1 st1 = (r1, st1, None)
      /\ exists r2 effects,
           Close r1 = Some (r2, effects, None)
           /\ r2 = mkRtr false (options r) ChanClosed None ∅
  end.
Proof.
  intros Hrun. unfold start. rewrite Hrun.
  destruct (if Precache (options r) then loadRoutes (options r) reg st else (st, None))
    as [st1 [err1|]].
  { split; [reflexivity|]. exists err1. left. reflexivity. }
  destruct (if bool_decide (opt_Gateway (options r) <> "") then _ else _)
    as [st2 [err2|]].
  { split; [reflexivity|]. exists err2. right. reflexivity. }
  split; [reflexivity|]. split; [reflexivity|].
  unfold Close, drain. cbn [exit running negb eventChan subscribers options].
  destruct (eventChan r) as [pending|];
    cbn [exit running negb eventChan subscribers options];
    rewrite closeSubscribers_all; eexists _, _; split; reflexivity.
Qed.

(** X8: [start] does not forgive a duplicate gateway route: any error of
    the table's Create on the default gateway route, [ErrDuplicateRoute]
    included, makes it fail with that error wrapped and leaves the router
    stopped. *)
Theorem start_gateway_error (reg : Registry) (r : rtr) (st st1 : tstate T) (err : error) :
  running r = false ->
  opt_Gateway (options r) <> "" ->
  preloaded reg r st = (st1, None) ->
  snd (tCreate (gatewayRoute (options r)) (table st1)) = Some err ->
  start reg r st
  = (r, fst (callCreate (gatewayRoute (options r)) st1), Some (FailedGateway err)).
Proof.
  intros Hrun Hgw Hpre Herr. unfold start. rewrite Hrun.
  unfold preloaded in Hpre. rewrite Hpre.
  rewrite (bool_decide_eq_true_2 _ Hgw).
  fold (gatewayRoute (options r)).
  unfold callCreate.
  destruct (tCreate (gatewayRoute (options r)) (table st1)) as [t' e].
  cbn [snd] in Herr. subst e. reflexivity.
Qed.

End BringUpFacts.

(** * Further properties of subscriptions and teardown *)

Lemma imap_stamp_routes (evType : EventType) (clock : nat -> Z) (routes : list Route) :
  map ev_Route (imap (fun i route => mkEvent evType (clock i) route) routes) = routes.
Proof.
  revert clock. induction routes as [|r routes IH]; intros clock; [reflexivity|].
  cbn [imap map ev_Route]. f_equal. apply (IH (clock ∘ S)).
Qed.

Lemma imap_stamp_lookup (evType : EventType) (clock : nat -> Z) (routes : list Route)
    (i : nat) (e : Event) :
  imap (fun i route => mkEvent evType (clock i) route) routes !! i = Some e ->
  ev_Type e = evType /\ Timestamp e = clock i /\ routes !! i = Some (ev_Route e).
Proof.
  rewrite list_lookup_imap. destruct (routes !! i) as [r|]; [|discriminate].
  cbn. intros H. injection H as <-. repeat split.
Qed.

(** X9: [flushRouteEvents] turns the queried routes into one event each,
    in the order of the routes, of the asked type and stamped in turn; it
    lets [ErrRouteNotFound] through as success and returns every other
    error of the query with no event. *)
Theorem flushRouteEvents_events (evType : EventType) (clock : nat -> Z)
    (queried : list Route * option error) :
  match snd queried with
  | Some err =>
      err <> ErrRouteNotFound ->
      flushRouteEvents evType clock queried = ([], Some err)
  | None => True
  end
  /\ (snd queried = None \/ snd queried = Some ErrRouteNotFound ->
      snd (flushRouteEvents evType clock queried) = None
      /\ map ev_Route (fst (flushRouteEvents evType clock queried)) = fst queried
      /\ forall i e, fst (flushRouteEvents evType clock queried) !! i = Some e ->
           ev_Type e = evType /\ Timestamp e = clock i).
Proof.
  unfold flushRouteEvents. destruct queried as [routes [err|]]; cbn [fst snd]; split.
  - intros Hne. rewrite decide_False by exact Hne. reflexivity.
  - intros [H|H]; [discriminate|]. injection H as ->.
    rewrite decide_True by reflexivity. cbn [fst snd].
    split; [reflexivity|]. split; [apply imap_stamp_routes|].
    intros i e He. apply imap_stamp_lookup in He. tauto.
  - exact I.
  - intros _. split; [reflexivity|]. split; [apply imap_stamp_routes|].
    intros i e He. apply imap_stamp_lookup in He. tauto.
Qed.

(** The result of [Advertise], case by case. *)
Lemma Advertise_subscribes_aux (id : string) (clock : nat -> Z)
    (queried : list Route * option error) (r : rtr) :
  match rtr_Advertise id clock queried r with
  | (r', FailedFlush err, pubs) =>
      r' = r /\ pubs = [] /\ eventChan r = None
      /\ snd queried = Some err /\ err <> ErrRouteNotFound
  | (r', Subscribed id', pubs) =>
      id' = id
      /\ subscribers r' = <[id := []]> (subscribers r)
      /\ running r' = running r /\ exit r' = exit r /\ options r' = options r
      /\ eventChan r' = Some (default [] (eventChan r))
      /\ pubs = match eventChan r with
                | Some _ => []
                | None => [(Announce, fst (flushRouteEvents Create clock queried))]
                end
  end.
Proof.
  unfold rtr_Advertise. destruct (eventChan r) as [pending|] eqn:Hec.
  - repeat split.
  - unfold flushRouteEvents. destruct queried as [routes [err|]]; cbn [fst snd].
    + case_decide as Hd; cbn [fst snd]; repeat split; assumption.
    + repeat split.
Qed.


(** X10: [Advertise] never looks at the running flag or the exit channel.
    When it fails the router is as before, and that happens only on the
    first subscription, by an error of the flush. When it succeeds exactly
    the new subscriber is registered, with an empty channel, the router is
    advertising from then on, and the announcement is published on the
    first subscription only: a later subscriber gets no announcement. *)
Theorem Advertise_subscribes (id : string) (clock : nat -> Z)
    (queried : list Route * option error) (r : rtr) :
  match rtr_Advertise id clock queried r with
  | (r', FailedFlush err, pubs) =>
      r' = r /\ pubs = [] /\ eventChan r = None
      /\ snd queried = Some err /\ err <> ErrRouteNotFound
  | (r', Subscribed id', pubs) =>
      id' = id
      /\ subscribers r' = <[id := []]> (subscribers r)
      /\ running r' = running r /\ exit r' = exit r /\ options r' = options r
      /\ eventChan r' = Some (default [] (eventChan r))
      /\ pubs = match eventChan r with
                | Some _ => []
                | None => [(Announce, fst (flushRouteEvents Create clock queried))]
                end
  end.
Proof. apply Advertise_subscribes_aux. Qed.

Lemma closed_subscriber_in_effects (id : string) (buffer : list Advert)
    (subs : gmap string (list Advert)) :
  subs !! id = Some buffer ->
  CloseSubscriber id ∈ snd (closeSubscribers subs).
Proof.
  intros Hid. rewrite closeSubscribers_all. cbn [snd].
  apply list_elem_of_fmap. exists (id, buffer).
  split; [reflexivity|]. apply elem_of_map_to_list. exact Hid.
Qed.

(** X11: a subscriber registered by [Advertise] on a running router is
    closed by the next [Close], which leaves no subscriber and no event
    channel. *)
Theorem Advertise_then_Close (id : string) (clock : nat -> Z)
    (queried : list Route * option error) (r r1 : rtr)
    (pubs : list (AdvertType * list Event)) :
  running r = true -> exit r = ChanOpen ->
  rtr_Advertise id clock queried r = (r1, Subscribed id, pubs) ->
  exists r2 effects,
    Close r1 = Some (r2, effects, None)
    /\ CloseSubscriber id ∈ effects
    /\ CloseEventChan ∈ effects
    /\ r2 = mkRtr false (options r) ChanClosed None ∅.
Proof.
  intros Hrun Hexit Hadv.
  pose proof (Advertise_subscribes_aux id clock queried r) as Haux.
  rewrite Hadv in Haux. destruct Haux as (_ & Hsubs & Hr & He & Ho & Hec & _).
  destruct r1 as [run1 o1 ex1 ec1 subs1]. cbn [running exit options eventChan subscribers] in *.
  subst run1 ex1 o1 ec1 subs1. rewrite Hrun, Hexit.
  unfold Close, drain. cbn [exit running negb eventChan subscribers options].
  pose proof (closed_subscriber_in_effects id [] (<[id := []]> (subscribers r))
                (lookup_insert_eq _ _ _)) as Hin.
  rewrite closeSubscribers_all in *. cbn [snd] in Hin.
  eexists _, _. split; [reflexivity|]. split; [|split; [|reflexivity]].
  - apply elem_of_cons. right. apply elem_of_app. right.
    apply elem_of_app. left. exact Hin.
  - apply elem_of_cons. right. apply elem_of_app. right.
    apply elem_of_app. right. left.
Qed.

(** X12: [Advertise] on a stopped router (exit channel closed, or running
    flag false) still registers the subscriber, and [Close] then returns at
    once: the subscriber stays registered and its channel is never
    closed. *)
Theorem Advertise_on_stopped_router (id : string) (clock : nat -> Z)
    (queried : list Route * option error) (r r1 : rtr)
    (pubs : list (AdvertType * list Event)) :
  exit r = ChanClosed \/ running r = false ->
  rtr_Advertise id clock queried r = (r1, Subscribed id, pubs) ->
  Close r1 = Some (r1, [], None) /\ subscribers r1 !! id = Some [].
Proof.
  intros Hstopped Hadv.
  pose proof (Advertise_subscribes_aux id clock queried r) as Haux.
  rewrite Hadv in Haux. destruct Haux as (_ & Hsubs & Hr & He & _).
  split; [|rewrite Hsubs; apply lookup_insert_eq].
  unfold Close. rewrite He, Hr.
  destruct Hstopped as [-> | ->]; [reflexivity|].
  destruct (exit r); reflexivity.
Qed.

(** X13: the teardown of a running router is ordered: the exit channel is
    closed first, then the pending table events are drained, then every
    subscriber channel is closed, each exactly once, and the event channel
    last, when there is one. *)
Theorem Close_teardown_order (r : rtr) :
  running r = true -> exit r = ChanOpen ->
  exists r' ids,
    Close r
    = Some (r',
            [CloseExit] ++ map DrainEvent (default [] (eventChan r))
              ++ map CloseSubscriber ids
              ++ match eventChan r with
                 | Some _ => [CloseEventChan]
                 | None => []
                 end,
            None)
    /\ NoDup ids
    /\ forall id, id ∈ ids <-> is_Some (subscribers r !! id).
Proof.
  intros Hrun Hexit. destruct r as [run o ex ec subs].
  cbn [running exit eventChan subscribers] in *. subst run ex.
  exists (mkRtr false o ChanClosed None ∅), (map fst (map_to_list subs)).
  split; [|split].
  - unfold Close, drain. cbn [exit running negb eventChan subscribers options].
    destruct ec as [pending|];
      cbn [exit running negb eventChan subscribers options default];
      rewrite closeSubscribers_all, map_map; cbn [map]; [reflexivity|].
    rewrite app_nil_r. reflexivity.
  - apply NoDup_fst_map_to_list.
  - intros id. rewrite list_elem_of_fmap. split.
    + intros ([k v] & -> & Hin). apply elem_of_map_to_list in Hin. eexists; exact Hin.
    + intros [v Hv]. exists (id, v). split; [reflexivity|].
      apply elem_of_map_to_list. exact Hv.
Qed.

(** * Further properties of the advert engine *)

Section EngineMore.
Variable Hash : Route -> Z.
Variable opts : Options.

Lemma advertiseEvents_snoc (inputs : list engineInput) (i : engineInput) :
  advertiseEvents Hash opts (inputs ++ [i])
  = engineStep Hash opts (advertiseEvents Hash opts inputs) i.
Proof. rewrite advertiseEvents_app. reflexivity. Qed.

Lemma engineStep_none (st : engine) (i : engineInput) :
  Advertise opts = AdvertiseNone -> engineStep Hash opts st i = st.
Proof.
  intros Hnone. destruct st as [adv pub]. destruct i as [|[e|]]; cbn [engineStep].
  - unfold onTick. rewrite bool_decide_eq_true_2 by exact Hnone. reflexivity.
  - unfold onEvent. cbn [adverts published].
    rewrite bool_decide_eq_true_2 by exact Hnone. reflexivity.
  - reflexivity.
Qed.

(** X14: under the strategy AdvertiseNone the engine keeps nothing and
    publishes nothing, whatever it receives. *)
Theorem advertiseEvents_none_silent (inputs : list engineInput) :
  Advertise opts = AdvertiseNone ->
  advertiseEvents Hash opts inputs = mkEngine ∅ [].
Proof.
  intros Hnone. unfold advertiseEvents. generalize (mkEngine ∅ []).
  induction inputs as [|i inputs IH]; intros st; cbn [fold_left]; [reflexivity|].
  rewrite (engineStep_none st i Hnone). apply IH.
Qed.

Lemma inputEvents_app (l1 l2 : list engineInput) :
  inputEvents (l1 ++ l2) = inputEvents l1 ++ inputEvents l2.
Proof. unfold inputEvents. apply omap_app. Qed.

Lemma advertOk_more (l1 l2 : list engineInput) (p : AdvertType * list Event) :
  advertOk Hash opts l1 p -> advertOk Hash opts (l1 ++ l2) p.
Proof.
  intros (Ht & Hne & Hnd & Hall). repeat split; try assumption.
  eapply Forall_impl; [exact Hall|]. intros e [Hs Hin]. split; [exact Hs|].
  rewrite inputEvents_app. apply elem_of_app. left. exact Hin.
Qed.

Lemma onEvent_entries (e : option Event) (adv : gmap Z Event) (k : Z) (ev : Event) :
  onEvent Hash opts e adv !! k = Some ev -> adv !! k = Some ev \/ e = Some ev.
Proof.
  unfold onEvent. destruct e as [x|]; [|left; assumption].
  case_bool_decide; [left; assumption|].
  destruct (skipLocal opts x); [left; assumption|].
  destruct (adv !! Hash (ev_Route x)) eqn:Hx; [left; assumption|].
  destruct (decide (Hash (ev_Route x) = k)) as [<-|Hne].
  - rewrite lookup_insert_eq. intros H'. right. exact H'.
  - rewrite lookup_insert_ne by exact Hne. left. assumption.
Qed.

Lemma keyed_hashes (adv : gmap Z Event) :
  keyed Hash opts adv ->
  map (fun e => Hash (ev_Route e)) (map snd (map_to_list adv)) = map fst (map_to_list adv).
Proof.
  intros Hk. rewrite map_map. apply map_ext_in. intros [k ev] Hin. cbn.
  apply list_elem_of_In, elem_of_map_to_list in Hin. apply (Hk k ev Hin).
Qed.

Lemma engine_invariant (inputs : list engineInput) :
  (forall k ev, adverts (advertiseEvents Hash opts inputs) !! k = Some ev ->
     ev ∈ inputEvents inputs)
  /\ Forall (advertOk Hash opts inputs) (published (advertiseEvents Hash opts inputs)).
Proof.
  induction inputs as [|i inputs [IHm IHp]] using rev_ind.
  - split; [|constructor]. intros k ev Hk. cbn in Hk.
    rewrite lookup_empty in Hk. discriminate.
  - rewrite advertiseEvents_snoc.
    pose proof (advertiseEvents_keyed Hash opts inputs) as Hkeyed.
    set (st := advertiseEvents Hash opts inputs) in *.
    assert (Hold : Forall (advertOk Hash opts (inputs ++ [i])) (published st)).
    { eapply Forall_impl; [exact IHp|]. intros p. apply advertOk_more. }
    destruct i as [|e]; cbn [engineStep].
    + destruct (decide (Advertise opts = AdvertiseNone)) as [Hn|Hn].
      * assert (Ht : onTick opts st = st) by apply (engineStep_none st TickerC Hn).
        rewrite Ht. split; [|exact Hold]. intros k ev Hk.
        rewrite inputEvents_app. apply elem_of_app. left. exact (IHm k ev Hk).
      * rewrite (onTick_keyed Hash opts st Hn Hkeyed). cbn [adverts published].
        split; [intros k ev Hk; rewrite lookup_empty in Hk; discriminate|].
        apply Forall_app. split; [exact Hold|].
        case_bool_decide as Hlen; [|constructor].
        constructor; [|constructor]. repeat split; cbn [fst snd].
        -- intros Hnil. apply (f_equal length) in Hnil.
           rewrite length_map in Hnil. cbn in Hnil. lia.
        -- rewrite (keyed_hashes _ Hkeyed). apply NoDup_fst_map_to_list.
        -- apply Forall_forall. intros ev Hev.
           apply list_elem_of_fmap in Hev as ([k ev'] & -> & Hin). cbn.
           apply elem_of_map_to_list in Hin. split; [apply (Hkeyed k ev' Hin)|].
           rewrite inputEvents_app. apply elem_of_app. left. exact (IHm k ev' Hin).
    + cbn [adverts published]. split; [|exact Hold].
      intros k ev Hk. rewrite inputEvents_app. apply elem_of_app.
      apply onEvent_entries in Hk as [Hk| ->]; [left; exact (IHm k ev Hk)|].
      right. cbn. left.
Qed.

(** X15: every advert the engine publishes is an update with at least one
    event and at most one event per fingerprint; each of its events is a
    table event the engine received, and one the strategy lets through:
    under AdvertiseLocal all of them are link-local. *)
Theorem published_adverts_ok (inputs : list engineInput) :
  Forall (advertOk Hash opts inputs) (published (advertiseEvents Hash opts inputs))
  /\ (Advertise opts = AdvertiseLocal ->
      Forall (fun p => Forall (fun e => Link (ev_Route e) = "local") (snd p))
             (published (advertiseEvents Hash opts inputs))).
Proof.
  split; [apply engine_invariant|].
  intros Hlocal. eapply Forall_impl; [apply engine_invariant|].
  intros p (_ & _ & _ & Hall). eapply Forall_impl; [exact Hall|].
  intros e [Hskip _]. unfold skipLocal in Hskip.
  rewrite (bool_decide_eq_true_2 _ Hlocal) in Hskip. cbn [andb] in Hskip.
  apply negb_false_iff, bool_decide_eq_true_1 in Hskip. exact Hskip.
Qed.

(** X16: an event is advertised once: a tick that follows a tick with no
    table event in between publishes nothing and finds the map empty. *)
Theorem idle_tick_publishes_nothing (inputs : list engineInput) :
  published (advertiseEvents Hash opts (inputs ++ [TickerC; TickerC]))
  = published (advertiseEvents Hash opts (inputs ++ [TickerC]))
  /\ (Advertise opts <> AdvertiseNone ->
      adverts (advertiseEvents Hash opts (inputs ++ [TickerC])) = ∅).
Proof.
  replace (inputs ++ [TickerC; TickerC]) with ((inputs ++ [TickerC]) ++ [TickerC])
    by (rewrite <- app_assoc; reflexivity).
  rewrite (advertiseEvents_snoc (inputs ++ [TickerC])). cbn [engineStep].
  destruct (decide (Advertise opts = AdvertiseNone)) as [Hn|Hn].
  - assert (Ht : forall st, onTick opts st = st)
      by (intros st; apply (engineStep_none st TickerC Hn)).
    rewrite Ht. split; [reflexivity|]. intros Hne. contradiction.
  - assert (Hempty : adverts (advertiseEvents Hash opts (inputs ++ [TickerC])) = ∅).
    { rewrite advertiseEvents_snoc. cbn [engineStep].
      rewrite (onTick_keyed Hash opts _ Hn (advertiseEvents_keyed Hash opts inputs)).
      reflexivity. }
    split; [|intros _; exact Hempty].
    rewrite (onTick_keyed Hash opts _ Hn (advertiseEvents_keyed Hash opts _)).
    cbn [published]. rewrite Hempty, map_to_list_empty. cbn.
    apply app_nil_r.
Qed.

(** X17: nil table events are ignored: a run with them and the run without
    them end in the same map with the same adverts published. *)
Theorem nil_events_ignored (inputs : list engineInput) :
  advertiseEvents Hash opts (List.filter notNilInput inputs)
  = advertiseEvents Hash opts inputs.
Proof.
  unfold advertiseEvents. generalize (mkEngine ∅ []).
  induction inputs as [|i inputs IH]; intros st; [reflexivity|].
  destruct i as [|[e|]]; cbn [List.filter notNilInput fold_left]; try apply IH.
  cbn [engineStep onEvent]. destruct st as [adv pub]. apply IH.
Qed.

End EngineMore.

Section EngineComplete.
Variable Hash : Route -> Z.
Variable opts : Options.

Lemma onEvent_keeps_entries (e : option Event) (adv : gmap Z Event) (k : Z) :
  is_Some (adv !! k) -> is_Some (onEvent Hash opts e adv !! k).
Proof.
  intros Hk. unfold onEvent. destruct e as [x|]; [|exact Hk].
  case_bool_decide; [exact Hk|].
  destruct (skipLocal opts x); [exact Hk|].
  destruct (adv !! Hash (ev_Route x)) eqn:Hx; [exact Hk|].
  destruct (decide (Hash (ev_Route x) = k)) as [<-|Hne].
  - rewrite lookup_insert_eq. eexists; reflexivity.
  - rewrite lookup_insert_ne by exact Hne. exact Hk.
Qed.

Lemma onEvent_makes_entry (e : Event) (adv : gmap Z Event) :
  Advertise opts <> AdvertiseNone -> skipLocal opts e = false ->
  is_Some (onEvent Hash opts (Some e) adv !! Hash (ev_Route e)).
Proof.
  intros Hn Hs. unfold onEvent. rewrite (bool_decide_eq_false_2 _ Hn), Hs.
  destruct (adv !! Hash (ev_Route e)) eqn:Hx.
  - rewrite Hx. eexists; reflexivity.
  - rewrite lookup_insert_eq. eexists; reflexivity.
Qed.

Lemma window_keeps_entries (window : list engineInput) (st : engine) (k : Z) :
  Forall (fun i => i <> TickerC) window ->
  is_Some (adverts st !! k) ->
  is_Some (adverts (fold_left (engineStep Hash opts) window st) !! k).
Proof.
  intros Hw. revert st. induction Hw as [|i window Hi _ IH]; intros st Hk; [exact Hk|].
  cbn [fold_left]. apply IH. destruct i as [|e]; [contradiction|].
  cbn [engineStep adverts]. apply onEvent_keeps_entries, Hk.
Qed.

Lemma window_makes_entry (window : list engineInput) (st : engine) (e : Event) :
  Advertise opts <> AdvertiseNone -> skipLocal opts e = false ->
  Forall (fun i => i <> TickerC) window ->
  e ∈ inputEvents window ->
  is_Some (adverts (fold_left (engineStep Hash opts) window st) !! Hash (ev_Route e)).
Proof.
  intros Hn Hs Hw. revert st. induction Hw as [|i window Hi Hw IH]; intros st Hin.
  - apply elem_of_nil in Hin. contradiction.
  - cbn [fold_left]. destruct i as [|[x|]]; [contradiction| |].
    + change (inputEvents (EventChan (Some x) :: window))
        with (x :: inputEvents window) in Hin.
      apply elem_of_cons in Hin as [->|Hin]; [|apply IH, Hin].
      apply window_keeps_entries; [exact Hw|].
      cbn [engineStep adverts]. apply onEvent_makes_entry; assumption.
    + apply IH, Hin.
Qed.

(** X18: no fingerprint is lost: when the strategy is not AdvertiseNone,
    every table event the strategy lets through, received since the last
    tick, has its fingerprint in the advert of the next tick. *)
Theorem admitted_event_is_advertised (pre window : list engineInput) (e : Event) :
  Advertise opts <> AdvertiseNone ->
  skipLocal opts e = false ->
  Forall (fun i => i <> TickerC) window ->
  e ∈ inputEvents window ->
  exists events e',
    published (advertiseEvents Hash opts (pre ++ window ++ [TickerC]))
    = published (advertiseEvents Hash opts (pre ++ window)) ++ [(RouteUpdate, events)]
    /\ e' ∈ events
    /\ Hash (ev_Route e') = Hash (ev_Route e).
Proof.
  intros Hn Hs Hw Hin.
  replace (pre ++ window ++ [TickerC]) with ((pre ++ window) ++ [TickerC])
    by (rewrite <- app_assoc; reflexivity).
  rewrite (advertiseEvents_app Hash opts (pre ++ window)). cbn [fold_left engineStep].
  pose proof (advertiseEvents_keyed Hash opts (pre ++ window)) as Hkeyed.
  assert (Hentry : is_Some (adverts (advertiseEvents Hash opts (pre ++ window))
                              !! Hash (ev_Route e))).
  { rewrite advertiseEvents_app. apply window_makes_entry; assumption. }
  destruct Hentry as [e' He'].
  rewrite (onTick_keyed Hash opts _ Hn Hkeyed). cbn [published].
  exists (map snd (map_to_list (adverts (advertiseEvents Hash opts (pre ++ window))))), e'.
  assert (Hmem : (Hash (ev_Route e), e')
                 ∈ map_to_list (adverts (advertiseEvents Hash opts (pre ++ window))))
    by (apply elem_of_map_to_list; exact He').
  split; [|split].
  - rewrite bool_decide_eq_true_2; [reflexivity|].
    destruct (map_to_list (adverts (advertiseEvents Hash opts (pre ++ window))));
      [apply elem_of_nil in Hmem; contradiction|cbn; lia].
  - apply list_elem_of_fmap. exists (Hash (ev_Route e), e'). split; [reflexivity|exact Hmem].
  - apply (Hkeyed _ _ He').
Qed.

End EngineComplete.

(** * Further properties of inbound adverts *)

Section ProcessMore.
Context {T : Type} {tableOps : Table T}.

Lemma forEach_processEvent_error (opts : Options) (l : list Event) (st : tstate T)
    (err : error) :
  snd (forEach (processEvent opts) l st) = Some err ->
  exists event cause,
    event ∈ l /\ foreign opts event
    /\ err = FailedApplying (ev_Type event) cause /\ manageError cause.
Proof.
  revert st. induction l as [|x l IH]; intros st; cbn [forEach]; [discriminate|].
  destruct (processEvent opts x st) as [st1 [e|]] eqn:Hx; cbn [snd].
  - intros Herr. injection Herr as <-. unfold processEvent in Hx.
    case_decide as Hown; [discriminate|]. cbv zeta in Hx.
    pose proof (manageRoute_manageError (ev_Route x) (EventType_String (ev_Type x)) st)
      as Hm.
    destruct (manageRoute (ev_Route x) (EventType_String (ev_Type x)) st)
      as [st2 [cause|]]; [|discriminate].
    injection Hx as _ <-. exists x, cause.
    split; [left|]. split; [exact Hown|]. split; [reflexivity|].
    apply Hm. reflexivity.
  - intros Herr. destruct (IH st1 Herr) as (event & cause & Hin & Hrest).
    exists event, cause. split; [right; exact Hin|exact Hrest].
Qed.

(** X19: an error of [Process] is never a bare table error: it is the
    error of [manageRoute] (a wrapped table error, or an unknown action)
    for one of the advert's events of another router, wrapped with that
    event's type. *)
Theorem Process_error_shape (opts : Options) (a : Advert) (m m' : Memory)
    (st st' : tstate T) (ptrs : list N) (pes : list (N * Event)) (err : error) :
  sliceRead m (Events a) = Some ptrs ->
  derefAll m ptrs = Some pes ->
  Process opts a m st = Some (m', st', Some err) ->
  exists event cause,
    event ∈ map snd pes /\ foreign opts event
    /\ err = FailedApplying (ev_Type event) cause /\ manageError cause.
Proof.
  intros Hread Hderef HP.
  rewrite (Process_unfold opts a m st ptrs pes Hread Hderef) in HP.
  injection HP as _ _ Herr.
  apply forEach_processEvent_error in Herr as (event & cause & Hin & Hrest).
  exists event, cause. split; [|exact Hrest].
  fold (sortedEvents pes) in Hin. rewrite sortedEvents_Permutation in Hin. exact Hin.
Qed.

(** X20: the order of the events in an advert does not matter when their
    timestamps tell them apart: two adverts with the same events in any
    two orders leave the same table, the same calls and the same result. *)
Theorem Process_order_insensitive (opts : Options) (a1 a2 : Advert) (m : Memory)
    (st : tstate T) (ptrs1 ptrs2 : list N) (pes1 pes2 : list (N * Event)) :
  sliceRead m (Events a1) = Some ptrs1 -> derefAll m ptrs1 = Some pes1 ->
  sliceRead m (Events a2) = Some ptrs2 -> derefAll m ptrs2 = Some pes2 ->
  map snd pes1 ≡ₚ map snd pes2 ->
  (forall x y, x ∈ map snd pes1 -> y ∈ map snd pes1 ->
     Timestamp x = Timestamp y -> x = y) ->
  exists m1 m2 st' err,
    Process opts a1 m st = Some (m1, st', err)
    /\ Process opts a2 m st = Some (m2, st', err).
Proof.
  intros Hr1 Hd1 Hr2 Hd2 Hperm Hdistinct.
  rewrite (Process_unfold opts a1 m st ptrs1 pes1 Hr1 Hd1).
  rewrite (Process_unfold opts a2 m st ptrs2 pes2 Hr2 Hd2).
  fold (sortedEvents pes1) (sortedEvents pes2).
  assert (Heq : sortedEvents pes1 = sortedEvents pes2).
  { apply (StronglySorted_unique_strong notAfter).
    - intros x y Hx Hy Hxy Hyx. unfold notAfter in *.
      rewrite sortedEvents_Permutation in Hx.
      rewrite sortedEvents_Permutation, <- Hperm in Hy.
      apply Hdistinct; [assumption..|lia].
    - apply sortedEvents_sorted.
    - apply sortedEvents_sorted.
    - rewrite !sortedEvents_Permutation. exact Hperm. }
  rewrite Heq. eexists _, _, _, _. split; reflexivity.
Qed.

End ProcessMore.

(** * Publishing to the subscribers *)

Section PublishFacts.
Variable pick : string -> bool.
Variable a : Advert.

Lemma publishLoop_served (l : list (string * list Advert))
    (subs : gmap string (list Advert)) :
  NoDup (map fst l) ->
  Forall (fun kv => (length (snd kv) < subscriberCap)%nat) l ->
  publishLoop pick false a l subs
  = (list_to_map (prod_map id (fun buffer => buffer ++ [a]) <$> l) ∪ subs, Published).
Proof.
  intros Hnd Hroom. revert subs.
  induction Hroom as [|[id buffer] l Hkv _ IH]; intros subs.
  - cbn. rewrite (left_id_L ∅ (∪)). reflexivity.
  - cbn [map fst] in Hnd. apply NoDup_cons in Hnd as [Hid Hnd].
    cbn [publishLoop snd] in *. rewrite bool_decide_eq_true_2 by exact Hkv.
    cbn [negb orb andb].
    rewrite (IH Hnd). f_equal. csimpl.
    rewrite <- insert_union_l, <- insert_union_r; [reflexivity|].
    apply not_elem_of_list_to_map_1.
    rewrite <- list_fmap_compose. exact Hid.
Qed.

Lemma publishLoop_safe (closed : bool) (l : list (string * list Advert))
    (subs : gmap string (list Advert)) :
  NoDup (map fst l) ->
  (forall id buffer, (id, buffer) ∈ l -> subs !! id = Some buffer) ->
  (forall id,
     fst (publishLoop pick closed a l subs) !! id = subs !! id
     \/ exists buffer,
          (id, buffer) ∈ l /\ (length buffer < subscriberCap)%nat
          /\ fst (publishLoop pick closed a l subs) !! id = Some (buffer ++ [a]))
  /\ match snd (publishLoop pick closed a l subs) with
     | Published => True
     | Aborted => closed = true
     | BlockedOn id =>
         closed = false
         /\ exists buffer, (id, buffer) ∈ l /\ (subscriberCap <= length buffer)%nat
     end.
Proof.
  intros Hnd. revert subs. induction l as [|[id buffer] l IH]; intros subs Hsubs.
  - cbn. split; [left; reflexivity|exact I].
  - cbn [map fst] in Hnd. apply NoDup_cons in Hnd as [Hid Hnd].
    cbn [publishLoop].
    destruct (bool_decide (length buffer < subscriberCap)%nat) eqn:Hroom;
      [destruct (negb closed || pick id) eqn:Hgo|]; cbn [andb].
    + assert (Hsubs' : forall id' buffer', (id', buffer') ∈ l ->
                <[id := buffer ++ [a]]> subs !! id' = Some buffer').
      { intros id' buffer' Hin. rewrite lookup_insert_ne.
        - apply Hsubs. right. exact Hin.
        - intros <-. apply Hid. apply list_elem_of_fmap.
          exists (id, buffer'). split; [reflexivity|exact Hin]. }
      destruct (IH Hnd _ Hsubs') as [Hmap Hout]. split.
      * intros id'. destruct (Hmap id') as [Hsame|(b & Hin & Hlen & Hnew)].
        -- destruct (decide (id = id')) as [<-|Hne].
           ++ right. exists buffer. split; [left|].
              split; [eapply bool_decide_eq_true_1; exact Hroom|].
              rewrite Hsame. apply lookup_insert_eq.
           ++ left. rewrite Hsame. apply lookup_insert_ne. exact Hne.
        -- right. exists b. split; [right; exact Hin|]. split; assumption.
      * destruct (snd (publishLoop pick closed a l (<[id := buffer ++ [a]]> subs)));
          [exact I|exact Hout|].
        destruct Hout as [Hc (b & Hin & Hfull)].
        split; [exact Hc|]. exists b. split; [right; exact Hin|exact Hfull].
    + destruct closed; cbn [fst snd].
      * split; [left; reflexivity|reflexivity].
      * discriminate.
    + destruct closed; cbn [fst snd].
      * split; [left; reflexivity|reflexivity].
      * split; [left; reflexivity|]. split; [reflexivity|].
        exists buffer. split; [left|]. apply bool_decide_eq_false_1 in Hroom. lia.
Qed.

End PublishFacts.

(** X21: the fan-out: when the exit channel is not closed and every
    subscriber channel has room, [publishAdvert] serves every subscriber,
    with one and the same advert at the end of its queue; the advert
    carries the router's id, the default TTL and the events given; and the
    set of subscribers and the rest of the router are unchanged. *)
Theorem publishAdvert_fan_out (pick : string -> bool) (advType : AdvertType)
    (events : slice) (now : Z) (r : rtr) :
  exit r <> ChanClosed ->
  map_Forall (fun _ buffer => (length buffer < subscriberCap)%nat) (subscribers r) ->
  publishAdvert pick advType events now r
  = (mkRtr (running r) (options r) (exit r) (eventChan r)
       ((fun buffer =>
           buffer ++ [mkAdvert (Id (options r)) advType DefaultAdvertTTL now events])
        <$> subscribers r),
     Published).
Proof.
  intros Hexit Hroom. unfold publishAdvert. cbv zeta.
  assert (Hc : isClosed (exit r) = false) by (destruct (exit r); [reflexivity..|contradiction]).
  rewrite Hc, publishLoop_served.
  - rewrite list_to_map_fmap, list_to_map_to_list. do 2 f_equal.
    apply map_eq. intros id. rewrite lookup_union, lookup_fmap.
    destruct (subscribers r !! id); reflexivity.
  - apply NoDup_fst_map_to_list.
  - apply map_Forall_to_list in Hroom. eapply Forall_impl; [exact Hroom|].
    intros [id buffer] H. exact H.
Qed.

(** X22: whatever the exit channel and the choices of the [select],
    [publishAdvert] changes nothing but subscriber queues: a queue is either
    as before or had room and got the advert at its end, so no advert is
    dropped, no queue goes over its capacity and no subscriber is added or
    removed; it gives up only when the exit channel is closed, and waits
    only on a full queue while the exit channel is not closed. *)
Theorem publishAdvert_safe (pick : string -> bool) (advType : AdvertType)
    (events : slice) (now : Z) (r : rtr) :
  let a := mkAdvert (Id (options r)) advType DefaultAdvertTTL now events in
  let r' := fst (publishAdvert pick advType events now r) in
  running r' = running r /\ options r' = options r /\ exit r' = exit r
  /\ eventChan r' = eventChan r
  /\ (forall id,
        subscribers r' !! id = subscribers r !! id
        \/ exists buffer,
             subscribers r !! id = Some buffer
             /\ (length buffer < subscriberCap)%nat
             /\ subscribers r' !! id = Some (buffer ++ [a]))
  /\ match snd (publishAdvert pick advType events now r) with
     | Published => True
     | Aborted => exit r = ChanClosed
     | BlockedOn id =>
         exit r <> ChanClosed
         /\ exists buffer,
              subscribers r !! id = Some buffer
              /\ (subscriberCap <= length buffer)%nat
     end.
Proof.
  intros a r'. subst r'. unfold publishAdvert. cbv zeta. fold a.
  pose proof (publishLoop_safe pick a (isClosed (exit r))
                (map_to_list (subscribers r)) (subscribers r)
                (NoDup_fst_map_to_list _)) as Hsafe.
  destruct Hsafe as [Hmap Hout].
  { intros id buffer Hin. apply elem_of_map_to_list. exact Hin. }
  destruct (publishLoop pick (isClosed (exit r)) a (map_to_list (subscribers r))
              (subscribers r)) as [subs outcome].
  cbn [fst snd running options exit eventChan subscribers] in *.
  repeat split.
  - intros id. destruct (Hmap id) as [Hs|(b & Hin & Hlen & Hnew)]; [left; exact Hs|].
    right. exists b. split; [apply elem_of_map_to_list; exact Hin|]. split; assumption.
  - destruct outcome as [| |id]; [exact I| |].
    + destruct (exit r); try discriminate. reflexivity.
    + destruct Hout as [Hc (b & Hin & Hfull)]. split.
      * intros Heq. rewrite Heq in Hc. discriminate.
      * exists b. split; [apply elem_of_map_to_list; exact Hin|exact Hfull].
Qed.

(** * The further properties on concrete runs *)

Lemma manageRoutes_unknown_action_witness :
  manageRoutes optsAll cartService "Refresh" "prod" emptyTable
  = (emptyTable, Some (UnknownAction "cart" "refresh"))
  /\ manageRoutes optsAll (mkService "cart" "1.0" None []) "Refresh" "prod" emptyTable
     = (emptyTable, None).
Proof.
  split.
  - apply (manageRoutes_unknown_action optsAll cartService "Refresh" "prod" emptyTable);
      discriminate.
  - apply (manageRoutes_unknown_action optsAll (mkService "cart" "1.0" None [])
             "Refresh" "prod" emptyTable); discriminate.
Defined.


Lemma start_lifecycle_witness :
  exists st1,
    start sampleRegistry (mkRtr false optsGateway ChanNil None ∅) emptyTable
    = (mkRtr true optsGateway ChanOpen None ∅, st1, None)
    /\ Close (mkRtr true optsGateway ChanOpen None ∅)
       = Some (mkRtr false optsGateway ChanClosed None ∅, [CloseExit], None).
Proof.
  pose proof (start_lifecycle sampleRegistry (mkRtr false optsGateway ChanNil None ∅)
                emptyTable eq_refl) as H.
  destruct (start sampleRegistry (mkRtr false optsGateway ChanNil None ∅) emptyTable)
    as [[r1 st1] [err|]] eqn:Hstart.
  - exfalso. vm_compute in Hstart. discriminate Hstart.
  - destruct H as (-> & _ & _). exists st1. split; [reflexivity|].
    vm_compute. reflexivity.
Defined.

Lemma start_gateway_error_witness :
  snd (start sampleRegistry stoppedRouter
         (snd (NewRouter optsGateway sampleRegistry (mkSpecTable ∅ [] 100))))
  = Some (FailedGateway ErrDuplicateRoute).
Proof.
  rewrite (start_gateway_error sampleRegistry stoppedRouter
             (snd (NewRouter optsGateway sampleRegistry (mkSpecTable ∅ [] 100)))
             (snd (NewRouter optsGateway sampleRegistry (mkSpecTable ∅ [] 100)))
             ErrDuplicateRoute).
  - reflexivity.
  - reflexivity.
  - discriminate.
  - reflexivity.
  - vm_compute. reflexivity.
Defined.

Lemma Advertise_then_Close_witness :
  exists r1 r2 effects,
    rtr_Advertise "sub-c" (fun i => 50 + Z.of_nat i) ([cartPeer], None) runningRouter
    = (r1, Subscribed "sub-c", [])
    /\ Close r1 = Some (r2, effects, None)
    /\ CloseSubscriber "sub-c" ∈ effects
    /\ CloseEventChan ∈ effects
    /\ r2 = mkRtr false optsAll ChanClosed None ∅.
Proof.
  eexists. 
  destruct (Advertise_then_Close "sub-c" (fun i => 50 + Z.of_nat i) ([cartPeer], None)
              runningRouter _ [] eq_refl eq_refl eq_refl) as (r2 & effects & H).
  exists r2, effects. split; [reflexivity|exact H].
Defined.

Lemma Advertise_on_stopped_router_witness :
  exists r1,
    rtr_Advertise "sub-c" (fun i => 50 + Z.of_nat i) ([cartPeer], None) stoppedRouter
    = (r1, Subscribed "sub-c",
       [(Announce, [mkEvent Create 50 cartPeer])])
    /\ Close r1 = Some (r1, [], None)
    /\ subscribers r1 !! "sub-c" = Some [].
Proof.
  eexists. split; [reflexivity|].
  apply (Advertise_on_stopped_router "sub-c" (fun i => 50 + Z.of_nat i)
           ([cartPeer], None) stoppedRouter _
           [(Announce, [mkEvent Create 50 cartPeer])]).
  - left. reflexivity.
  - reflexivity.
Defined.

Lemma Close_teardown_order_witness :
  exists r' ids,
    Close runningRouter
    = Some (r',
            [CloseExit] ++ map DrainEvent [evUpdate1] ++ map CloseSubscriber ids
              ++ [CloseEventChan],
            None)
    /\ NoDup ids
    /\ forall id, id ∈ ids <-> is_Some (subscribers runningRouter !! id).
Proof. apply (Close_teardown_order runningRouter); reflexivity. Defined.

Lemma advertiseEvents_none_silent_witness :
  advertiseEvents fingerprint optsNone
    [EventChan (Some evUpdate1); TickerC; EventChan (Some evDelete); TickerC]
  = mkEngine ∅ [].
Proof. apply advertiseEvents_none_silent. reflexivity. Defined.

Lemma admitted_event_is_advertised_witness :
  exists events e',
    published (advertiseEvents fingerprint optsAll
                 ([TickerC] ++ [EventChan (Some evOther); EventChan (Some evUpdate1)]
                    ++ [TickerC]))
    = published (advertiseEvents fingerprint optsAll
                   ([TickerC] ++ [EventChan (Some evOther); EventChan (Some evUpdate1)]))
      ++ [(RouteUpdate, events)]
    /\ e' ∈ events
    /\ fingerprint (ev_Route e') = fingerprint (ev_Route evUpdate1).
Proof.
  apply (admitted_event_is_advertised fingerprint optsAll [TickerC]
           [EventChan (Some evOther); EventChan (Some evUpdate1)] evUpdate1).
  - discriminate.
  - reflexivity.
  - repeat constructor; discriminate.
  - right. left.
Defined.

Lemma Process_error_shape_witness :
  exists event cause,
    event ∈ [evBad] /\ foreign optsAll event
    /\ FailedApplying (OtherType 7) (UnknownAction "cart" "unknown")
       = FailedApplying (ev_Type event) cause
    /\ manageError cause.
Proof.
  apply (Process_error_shape optsAll badAdvert badMemory
           (processMemory badMemory [1%N]) emptyTable emptyTable
           [1%N] [(1%N, evBad)]).
  - reflexivity.
  - reflexivity.
  - vm_compute. reflexivity.
Defined.

Lemma Process_order_insensitive_witness :
  exists m1 m2 st' err,
    Process optsAll sampleAdvert twoOrders emptyTable = Some (m1, st', err)
    /\ Process optsAll shuffledAdvert twoOrders emptyTable = Some (m2, st', err).
Proof.
  apply (Process_order_insensitive optsAll sampleAdvert shuffledAdvert twoOrders
           emptyTable [1%N; 2%N; 3%N] [3%N; 1%N; 2%N]
           [(1%N, evLate); (2%N, evOwn); (3%N, evEarly)]
           [(3%N, evEarly); (1%N, evLate); (2%N, evOwn)]).
  - reflexivity.
  - reflexivity.
  - reflexivity.
  - reflexivity.
  - symmetry. apply (Permutation_cons_append [evLate; evOwn] evEarly).
  - intros x y Hx Hy Hts. cbn [map snd] in Hx, Hy.
    repeat (apply elem_of_cons in Hx as [->|Hx]);
      try (apply elem_of_nil in Hx; contradiction);
      repeat (apply elem_of_cons in Hy as [->|Hy]);
      try (apply elem_of_nil in Hy; contradiction);
      try reflexivity; discriminate Hts.
Defined.

Lemma publishAdvert_fan_out_witness :
  publishAdvert (fun _ => false) RouteUpdate (mkSlice 7 0 3) 60 runningRouter
  = (mkRtr true optsAll ChanOpen (Some [evUpdate1])
       ((fun buffer =>
           buffer ++ [mkAdvert "self" RouteUpdate DefaultAdvertTTL 60 (mkSlice 7 0 3)])
        <$> subscribers runningRouter),
     Published).
Proof.
  apply (publishAdvert_fan_out (fun _ => false) RouteUpdate (mkSlice 7 0 3) 60
           runningRouter).
  - discriminate.
  - apply map_Forall_to_list. vm_compute.
    repeat constructor.
Defined.

(** A refresh of the cart service on the spec's table, twice: the first
    creates the three routes, the second finds them and promotes each
    create to an update. *)
Example refresh_twice :
  let once := fst (loadRoutes optsAll sampleRegistry emptyTable) in
  let twice := fst (loadRoutes optsAll sampleRegistry once) in
  calls once = map CallCreate (createRoutes optsAll cartService "default")
  /\ drop 3 (calls twice)
     = flat_map (fun r => [CallCreate r; CallUpdate r])
                (createRoutes optsAll cartService "default")
  /\ map ev_Type (emitted (table twice))
     = [Create; Create; Create; Update; Update; Update].
Proof. repeat split; vm_compute; reflexivity. Qed.
